(** * EncryptedMessaging: the message ledger and its client

    A shallow embedding of the Solidity contract [EncryptedMessaging]
    (the authoritative message ledger) and of the browser client that
    sends to it and reads from it ([Send.onSend], [Inbox.tryDecrypt]),
    followed by the properties of the acceptance protocol and of the
    decrypt path.

    Conventions.
    - Solidity integers ([uintN], [bytesN], [address]) are [Z], a value of
      width [w] ranging over [0 .. 2^w - 1].  Solidity 0.8 arithmetic is
      checked: an operation that leaves the range reverts with
      [Panic 0x11]; an explicit cast [uint64(x)] truncates.
    - A [mapping(K => V)] is a [gmap K V] read with the zero value of [V]
      as default, which is what an unset slot holds.
    - A function body is a computation in the monad [Tx]; [require]
      aborts it.  [call] is the transaction boundary: a reverted body
      leaves the ledger as it was before the call.
    - [keccak256] and [ecrecover] are EVM builtins and are parameters
      (class [EVM]); the WebCrypto, JSON and wallet primitives the client
      uses are parameters as well (class [Platform]). *)

From Stdlib Require Import ZArith Lia Strings.Byte Strings.Ascii.
From stdpp Require Import gmap strings list sorting pretty.

Local Open Scope Z_scope.

(** * Part I: the model *)

(** ** Solidity values *)
Abbreviation address := Z (only parsing).

Abbreviation bytes32 := Z (only parsing).

Abbreviation bytes12 := Z (only parsing).

Abbreviation uint8 := Z (only parsing).

Abbreviation uint64 := Z (only parsing).

Abbreviation uint128 := Z (only parsing).

Abbreviation uint256 := Z (only parsing).

Abbreviation bytes := (list byte) (only parsing).

(** Largest value of an unsigned integer of [w] bits. *)
Definition max_uint (w : Z) : Z := 2 ^ w - 1.

(** The explicit cast [uint64(x)]: the low 64 bits. *)
Definition to_uint64 (x : Z) : Z := x mod 2 ^ 64.

(** Reading a mapping: an unset key reads as the zero value [d]. *)
Definition rd `{Countable K} {V} (d : V) (m : gmap K V) (k : K) : V :=
  default d (m !! k).

(** [bytes(s)] for a string [s]. *)
Definition bytes_of (s : string) : bytes := String.list_byte_of_string s.

Definition byte_of_Z (z : Z) : byte :=
  default x00 (Byte.of_N (Z.to_N (z mod 256))).

(** The [n]-byte big-endian image of an integer, as [abi.encodePacked]
    lays out a value of a static type of [n] bytes. *)
Fixpoint be_bytes (n : nat) (z : Z) : bytes :=
  match n with
  | O => []
  | S k => byte_of_Z (z / 256 ^ Z.of_nat k) :: be_bytes k z
  end.

(** ** Types of the contract *)
Record MessageMeta := mkMessageMeta {
  m_id : uint256;
  m_sender : address;
  m_recipient : address;
  m_timestamp : uint64;
  m_sha256Hash : bytes32;
  m_iv : bytes12;
  m_contentCidHash : bytes32;
  m_keyCidHash : bytes32;
  m_nonce : uint128;
  m_sigR : bytes32;
  m_sigS : bytes32;
  m_sigV : uint8
}.

Record KeyRecord := mkKeyRecord {
  rsaPubKeySha256 : bytes32;
  rsaPubKeyURI : string;
  updatedAt : uint64
}.

(** What an unset slot of [messages] and of [keyRegistry] reads as. *)
Definition zeroMessage : MessageMeta :=
  mkMessageMeta 0 0 0 0 0 0 0 0 0 0 0 0.

Definition zeroKeyRecord : KeyRecord := mkKeyRecord 0 "" 0.

Inductive Event :=
  | MessageSent (id : uint256) (sender recipient : address)
      (timestamp : uint64) (sha256Hash : bytes32) (iv : bytes12)
      (contentCidHash keyCidHash : bytes32) (nonce : uint128)
  | KeyRegistered (owner : address) (rsaPubKeySha256 : bytes32)
      (rsaPubKeyURI : string) (updatedAt : uint64)
  | MinIntervalUpdated (newValue : uint64).

(** ** Storage

    The storage variables of the contract, and the log of the events it
    has emitted (which a revert rolls back like storage). *)
Record State := mkState {
  nextMessageId : uint256;
  messages : gmap Z MessageMeta;
  inboxIndex : gmap Z (list Z);
  outboxIndex : gmap Z (list Z);
  lastNonce : gmap Z Z;
  minIntervalSeconds : uint64;
  lastSentAt : gmap Z Z;
  usedIV : gmap (Z * Z * Z) bool;
  keyRegistry : gmap Z KeyRecord;
  events : list Event
}.

(** Storage at deployment: the two initialised variables, all mappings
    empty. *)
Definition genesis : State :=
  mkState 1 ∅ ∅ ∅ ∅ 10 ∅ ∅ ∅ [].

Definition set_nextMessageId (v : Z) (s : State) : State :=
  mkState v (messages s) (inboxIndex s) (outboxIndex s) (lastNonce s)
    (minIntervalSeconds s) (lastSentAt s) (usedIV s) (keyRegistry s) (events s).

Definition set_messages (f : gmap Z MessageMeta → gmap Z MessageMeta) (s : State) : State :=
  mkState (nextMessageId s) (f (messages s)) (inboxIndex s) (outboxIndex s) (lastNonce s)
    (minIntervalSeconds s) (lastSentAt s) (usedIV s) (keyRegistry s) (events s).

Definition set_inboxIndex (f : gmap Z (list Z) → gmap Z (list Z)) (s : State) : State :=
  mkState (nextMessageId s) (messages s) (f (inboxIndex s)) (outboxIndex s) (lastNonce s)
    (minIntervalSeconds s) (lastSentAt s) (usedIV s) (keyRegistry s) (events s).

Definition set_outboxIndex (f : gmap Z (list Z) → gmap Z (list Z)) (s : State) : State :=
  mkState (nextMessageId s) (messages s) (inboxIndex s) (f (outboxIndex s)) (lastNonce s)
    (minIntervalSeconds s) (lastSentAt s) (usedIV s) (keyRegistry s) (events s).

Definition set_lastNonce (f : gmap Z Z → gmap Z Z) (s : State) : State :=
  mkState (nextMessageId s) (messages s) (inboxIndex s) (outboxIndex s) (f (lastNonce s))
    (minIntervalSeconds s) (lastSentAt s) (usedIV s) (keyRegistry s) (events s).

Definition set_minIntervalSeconds (v : Z) (s : State) : State :=
  mkState (nextMessageId s) (messages s) (inboxIndex s) (outboxIndex s) (lastNonce s)
    v (lastSentAt s) (usedIV s) (keyRegistry s) (events s).

Definition set_lastSentAt (f : gmap Z Z → gmap Z Z) (s : State) : State :=
  mkState (nextMessageId s) (messages s) (inboxIndex s) (outboxIndex s) (lastNonce s)
    (minIntervalSeconds s) (f (lastSentAt s)) (usedIV s) (keyRegistry s) (events s).

Definition set_usedIV (f : gmap (Z * Z * Z) bool → gmap (Z * Z * Z) bool) (s : State) : State :=
  mkState (nextMessageId s) (messages s) (inboxIndex s) (outboxIndex s) (lastNonce s)
    (minIntervalSeconds s) (lastSentAt s) (f (usedIV s)) (keyRegistry s) (events s).

Definition set_keyRegistry (f : gmap Z KeyRecord → gmap Z KeyRecord) (s : State) : State :=
  mkState (nextMessageId s) (messages s) (inboxIndex s) (outboxIndex s) (lastNonce s)
    (minIntervalSeconds s) (lastSentAt s) (usedIV s) (f (keyRegistry s)) (events s).

Definition emit (e : Event) (s : State) : State :=
  mkState (nextMessageId s) (messages s) (inboxIndex s) (outboxIndex s) (lastNonce s)
    (minIntervalSeconds s) (lastSentAt s) (usedIV s) (keyRegistry s) (events s ++ [e]).

(** ** Execution of a function body *)
(** Why a call reverted: a failed [require] with its message, or a
    [Panic] with its code (0x11 is arithmetic over- or underflow). *)
Inductive Revert :=
  | Error (msg : string)
  | Panic (code : Z).

(** The failure kinds of the acceptance protocol are the [require]
    messages of [sendMessage]. *)
Definition InvalidInput_recipient : Revert := Error "recipient=0".

Definition InvalidInput_digest : Revert := Error "sha256Hash=0".

Definition InvalidInput_iv : Revert := Error "iv=0".

Definition RateLimited : Revert := Error "rate-limited".

Definition DuplicateIV : Revert := Error "IV already used".

Definition BadNonce : Revert := Error "bad nonce".

Definition BadSignature : Revert := Error "bad signature".

Definition Overflow : Revert := Panic 17.

(** A body either runs to its end, or stops at a revert; in both cases
    the storage it has written so far is the second component. *)
Inductive outcome (A : Type) :=
  | Done (a : A) (s : State)
  | Reverted (r : Revert) (dirty : State).

Arguments Done {A} a s.

Arguments Reverted {A} r dirty.

Definition Tx (A : Type) : Type := State → outcome A.

Definition ret {A} (a : A) : Tx A := fun s => Done a s.

Definition bind {A B} (c : Tx A) (k : A → Tx B) : Tx B :=
  fun s => match c s with
           | Done a s' => k a s'
           | Reverted r s' => Reverted r s'
           end.

Definition revert {A} (r : Revert) : Tx A := fun s => Reverted r s.

Definition gets {A} (f : State → A) : Tx A := fun s => Done (f s) s.

Definition modify (f : State → State) : Tx unit := fun s => Done tt (f s).

Definition require (cond : bool) (msg : string) : Tx unit :=
  if cond then ret tt else revert (Error msg).

(** Checked arithmetic on [w]-bit unsigned integers. *)
Definition checked_add (w : Z) (a b : Z) : Tx Z :=
  if a + b <=? max_uint w then ret (a + b) else revert Overflow.

Definition checked_sub (a b : Z) : Tx Z :=
  if b <=? a then ret (a - b) else revert Overflow.

Notation "x <- c ;; k" := (bind c (fun x => k))
  (at level 100, c at next level, right associativity).

Notation "c ;; k" := (bind c (fun _ => k))
  (at level 100, right associativity).

(** The result of a call as its caller sees it. *)
Inductive Result (A : Type) :=
  | Ok (a : A)
  | Err (r : Revert).

Arguments Ok {A} a.

Arguments Err {A} r.

(** The transaction boundary: the storage of a body that ran to its end
    is committed, the storage of a reverted body is thrown away. *)
Definition call {A} (body : Tx A) (s : State) : Result A * State :=
  match body s with
  | Done a s' => (Ok a, s')
  | Reverted r _ => (Err r, s)
  end.

(** What a body had written when it stopped. *)
Definition written {A} (body : Tx A) (s : State) : State :=
  match body s with
  | Done _ s' => s'
  | Reverted _ s' => s'
  end.

(** The context of a call: [msg.sender] and [block.timestamp]. *)
Record Env := mkEnv {
  msg_sender : address;
  block_timestamp : uint256
}.

(** The builtins of the EVM the contract calls. *)
Class EVM := {
  keccak256 : bytes → bytes32;
  ecrecover : bytes32 → uint8 → bytes32 → bytes32 → address
}.

Section Contract.
Context `{EVM}.

Definition setMinInterval (env : Env) (newValue : uint64) : Tx unit :=
  modify (set_minIntervalSeconds newValue) ;;
  modify (emit (MinIntervalUpdated newValue)).

Definition registerRSAPublicKey (env : Env)
    (rsaPubKeySha256 : bytes32) (rsaPubKeyURI : string) : Tx unit :=
  modify (set_keyRegistry
    <[msg_sender env :=
        mkKeyRecord rsaPubKeySha256 rsaPubKeyURI
          (to_uint64 (block_timestamp env))]>) ;;
  modify (emit (KeyRegistered (msg_sender env) rsaPubKeySha256 rsaPubKeyURI
                  (to_uint64 (block_timestamp env)))).

(** The metadata commitment a signature is made over:
    [abi.encodePacked] of the eleven fields, hashed. *)
Definition commitment (sender recipient : address) (nowTs : uint64)
    (sha256Hash : bytes32) (iv : bytes12)
    (contentCidHash keyCidHash : bytes32) (nonce : uint128) : bytes32 :=
  keccak256
    ([x19] ++ [x45] ++ bytes_of "MSG:" ++
     be_bytes 20 sender ++ be_bytes 20 recipient ++ be_bytes 8 nowTs ++
     be_bytes 32 sha256Hash ++ be_bytes 12 iv ++
     be_bytes 32 contentCidHash ++ be_bytes 32 keyCidHash ++
     be_bytes 16 nonce).

(** The EIP-191 envelope of a 32-byte hash. *)
Definition ethSignedMessageHash (commit : bytes32) : bytes32 :=
  keccak256
    ([x19] ++ bytes_of "Ethereum Signed Message:" ++ [x0a] ++ bytes_of "32" ++
     be_bytes 32 commit).

Definition sendMessage (env : Env) (recipient : address)
    (contentCID keyCID : string) (sha256Hash : bytes32) (iv : bytes12)
    (nonce : uint128) (sigV : uint8) (sigR sigS : bytes32) : Tx unit :=
  require (negb (recipient =? 0)) "recipient=0" ;;
  require (negb (sha256Hash =? 0)) "sha256Hash=0" ;;
  require (negb (iv =? 0)) "iv=0" ;;
  (* Rate limit *)
  let nowTs := to_uint64 (block_timestamp env) in
  lastTs <- gets (fun s => rd 0 (lastSentAt s) (msg_sender env)) ;;
  elapsed <- checked_sub nowTs lastTs ;;
  minInterval <- gets minIntervalSeconds ;;
  require (minInterval <=? elapsed) "rate-limited" ;;
  modify (set_lastSentAt <[msg_sender env := nowTs]>) ;;
  (* Unique IV per (sender, recipient) *)
  used <- gets (fun s => rd false (usedIV s) (msg_sender env, recipient, iv)) ;;
  require (negb used) "IV already used" ;;
  modify (set_usedIV <[(msg_sender env, recipient, iv) := true]>) ;;
  (* Anti-replay nonce *)
  last <- gets (fun s => rd 0 (lastNonce s) (msg_sender env)) ;;
  expected <- checked_add 128 last 1 ;;
  require (nonce =? expected) "bad nonce" ;;
  modify (set_lastNonce <[msg_sender env := nonce]>) ;;
  (* Hash CIDs *)
  let contentCidHash := keccak256 (bytes_of contentCID) in
  let keyCidHash := keccak256 (bytes_of keyCID) in
  (* ECDSA verification of the metadata signature *)
  (if negb (sigV =? 0) || negb (sigR =? 0) || negb (sigS =? 0) then
     let commit := commitment (msg_sender env) recipient nowTs sha256Hash iv
                     contentCidHash keyCidHash nonce in
     let ethMsgHash := ethSignedMessageHash commit in
     let recovered := ecrecover ethMsgHash sigV sigR sigS in
     require (recovered =? msg_sender env) "bad signature"
   else ret tt) ;;
  id <- gets nextMessageId ;;
  next <- checked_add 256 id 1 ;;
  modify (set_nextMessageId next) ;;
  modify (set_messages
    <[id := mkMessageMeta id (msg_sender env) recipient nowTs sha256Hash iv
              contentCidHash keyCidHash nonce sigR sigS sigV]>) ;;
  modify (set_inboxIndex (fun m => <[recipient := rd [] m recipient ++ [id]]> m)) ;;
  modify (set_outboxIndex
    (fun m => <[msg_sender env := rd [] m (msg_sender env) ++ [id]]> m)) ;;
  modify (emit (MessageSent id (msg_sender env) recipient nowTs sha256Hash iv
                  contentCidHash keyCidHash nonce)).

(** Getters. *)
Definition getInboxIds (s : State) (user : address) : list Z :=
  rd [] (inboxIndex s) user.

Definition getOutboxIds (s : State) (user : address) : list Z :=
  rd [] (outboxIndex s) user.

Definition isIVUsed (s : State) (sender_ recipient_ : address) (iv_ : bytes12) : bool :=
  rd false (usedIV s) (sender_, recipient_, iv_).

End Contract.

(** ** The acceptance decision in closed form

    [verdict] lists the checks of [sendMessage] in the order the body
    makes them and names the first that fails; [accepted] is the storage
    a body that passed them all has written.  [sendMessage_call] proves
    that this is what a call does. *)

Section Acceptance.
Context `{EVM}.

(** [sigV != 0 || sigR != bytes32(0) || sigS != bytes32(0)] *)
Definition sig_present (sigV : uint8) (sigR sigS : bytes32) : bool :=
  negb (sigV =? 0) || negb (sigR =? 0) || negb (sigS =? 0).

Definition recovered_signer (env : Env) (recipient : address)
    (contentCID keyCID : string) (sha256Hash : bytes32) (iv : bytes12)
    (nonce : uint128) (sigV : uint8) (sigR sigS : bytes32) : address :=
  ecrecover
    (ethSignedMessageHash
       (commitment (msg_sender env) recipient (to_uint64 (block_timestamp env))
          sha256Hash iv (keccak256 (bytes_of contentCID))
          (keccak256 (bytes_of keyCID)) nonce))
    sigV sigR sigS.

Definition verdict (s : State) (env : Env) (recipient : address)
    (contentCID keyCID : string) (sha256Hash : bytes32) (iv : bytes12)
    (nonce : uint128) (sigV : uint8) (sigR sigS : bytes32) : option Revert :=
  let sender := msg_sender env in
  let nowTs := to_uint64 (block_timestamp env) in
  let lastTs := rd 0 (lastSentAt s) sender in
  let last := rd 0 (lastNonce s) sender in
  if recipient =? 0 then Some InvalidInput_recipient
  else if sha256Hash =? 0 then Some InvalidInput_digest
  else if iv =? 0 then Some InvalidInput_iv
  else if negb (lastTs <=? nowTs) then Some Overflow
  else if negb (minIntervalSeconds s <=? nowTs - lastTs) then Some RateLimited
  else if rd false (usedIV s) (sender, recipient, iv) then Some DuplicateIV
  else if negb (last + 1 <=? max_uint 128) then Some Overflow
  else if negb (nonce =? last + 1) then Some BadNonce
  else if sig_present sigV sigR sigS &&
          negb (recovered_signer env recipient contentCID keyCID sha256Hash iv
                  nonce sigV sigR sigS =? sender)
       then Some BadSignature
  else if negb (nextMessageId s + 1 <=? max_uint 256) then Some Overflow
  else None.

Definition accepted (s : State) (env : Env) (recipient : address)
    (contentCID keyCID : string) (sha256Hash : bytes32) (iv : bytes12)
    (nonce : uint128) (sigV : uint8) (sigR sigS : bytes32) : State :=
  let sender := msg_sender env in
  let nowTs := to_uint64 (block_timestamp env) in
  let id := nextMessageId s in
  let contentCidHash := keccak256 (bytes_of contentCID) in
  let keyCidHash := keccak256 (bytes_of keyCID) in
  mkState (id + 1)
    (<[id := mkMessageMeta id sender recipient nowTs sha256Hash iv
               contentCidHash keyCidHash nonce sigR sigS sigV]> (messages s))
    (<[recipient := rd [] (inboxIndex s) recipient ++ [id]]> (inboxIndex s))
    (<[sender := rd [] (outboxIndex s) sender ++ [id]]> (outboxIndex s))
    (<[sender := nonce]> (lastNonce s))
    (minIntervalSeconds s)
    (<[sender := nowTs]> (lastSentAt s))
    (<[(sender, recipient, iv) := true]> (usedIV s))
    (keyRegistry s)
    (events s ++ [MessageSent id sender recipient nowTs sha256Hash iv
                    contentCidHash keyCidHash nonce]).

End Acceptance.

(** ** The ledger as a state machine *)

(** A call of one of the three external functions that write storage. *)
Inductive Call :=
  | SetMinInterval (newValue : uint64)
  | RegisterRSAPublicKey (rsaPubKeySha256 : bytes32) (rsaPubKeyURI : string)
  | SendMessage (recipient : address) (contentCID keyCID : string)
      (sha256Hash : bytes32) (iv : bytes12) (nonce : uint128)
      (sigV : uint8) (sigR sigS : bytes32).

Definition triple (m : MessageMeta) : Z * Z * Z :=
  (m_sender m, m_recipient m, m_iv m).

(** The accepted messages, in the order of their ids: the arena
    [messages] read at [1 .. nextMessageId - 1]. *)
Definition ledger (s : State) : list MessageMeta :=
  (λ id, rd zeroMessage (messages s) id) <$> seqZ 1 (nextMessageId s - 1).

Definition sent_by (a : address) (s : State) : list MessageMeta :=
  filter (λ m, m_sender m = a) (ledger s).

Definition received_by (a : address) (s : State) : list MessageMeta :=
  filter (λ m, m_recipient m = a) (ledger s).

(** The numbers [1 .. n]. *)
Definition one_to (n : Z) : list Z := Z.of_nat <$> seq 1 (Z.to_nat n).

Section Machine.
Context `{EVM}.

Definition invoke (env : Env) (c : Call) : Tx unit :=
  match c with
  | SetMinInterval v => setMinInterval env v
  | RegisterRSAPublicKey d uri => registerRSAPublicKey env d uri
  | SendMessage recipient contentCID keyCID sha256Hash iv nonce sigV sigR sigS =>
      sendMessage env recipient contentCID keyCID sha256Hash iv nonce sigV sigR sigS
  end.

(** One transaction. *)
Definition step (s : State) (env : Env) (c : Call) : State :=
  (call (invoke env c) s).2.

(** Any number of transactions, by any callers, at any times. *)
Inductive steps : State → State → Prop :=
  | steps_refl s : steps s s
  | steps_tx s s' env c : steps s s' → steps s (step s' env c).

Definition reachable (s : State) : Prop := steps genesis s.

End Machine.

Section Invariants.
Context `{EVM}.

(** What holds of every ledger that can be reached from [genesis]. *)
Record Inv (s : State) : Prop := mkInv {
  inv_next : 1 ≤ nextMessageId s;
  inv_ids : m_id <$> ledger s = seqZ 1 (nextMessageId s - 1);
  inv_outbox : ∀ a, getOutboxIds s a = m_id <$> sent_by a s;
  inv_inbox : ∀ a, getInboxIds s a = m_id <$> received_by a s;
  inv_counter : ∀ a, 0 ≤ rd 0 (lastNonce s) a;
  inv_nonces : ∀ a, m_nonce <$> sent_by a s = one_to (rd 0 (lastNonce s) a);
  inv_used : ∀ m, m ∈ ledger s → rd false (usedIV s) (triple m) = true;
  inv_nodup : NoDup (triple <$> ledger s)
}.

End Invariants.

(** ** A concrete EVM for the examples

    The examples below run the contract on concrete calls.  They need
    some hash and some signature scheme to run with, and none of them
    depends on which: here a polynomial checksum stands for [keccak256]
    and a signature names its signer in its [r] component. *)
Definition example_keccak256 (bs : bytes) : bytes32 :=
  fold_left (λ acc b, (acc * 257 + Z.of_N (Byte.to_N b) + 1) mod 2 ^ 256) bs 7.

Definition example_ecrecover (hash : bytes32) (v : uint8) (r s : bytes32) : address :=
  if v =? 27 then r else 0.

Definition exampleEVM : EVM :=
  {| keccak256 := example_keccak256; ecrecover := example_ecrecover |}.

Definition alice : address := 1001.

Definition bob : address := 1002.

Definition charlie : address := 1003.

(** Alice's first message to Bob, unsigned. *)
Definition first_send (t : Z) : Tx unit :=
  @sendMessage exampleEVM (mkEnv alice t) bob "local://c1" "local://k1"
    5 7 1 0 0 0.

Section Protocol.
Context `{EVM}.


(** Transactions none of which is a call of [setMinInterval]. *)
Inductive steps_keeping_interval : State → State → Prop :=
  | keeping_refl s : steps_keeping_interval s s
  | keeping_tx s s' env c :
      steps_keeping_interval s s' →
      (if c is SetMinInterval _ then False else True) →
      steps_keeping_interval s (step s' env c).

End Protocol.

(** ** The browser client

    [Send.onSend] and [Inbox.tryDecrypt] with the loop that calls it,
    over the browser's [localStorage], the ledger and the primitives of
    the platform. *)
#[local] Set Warnings "-register-all".

(** A JavaScript value, as far as [JSON.parse] can produce one. The
    fields of an object are listed once each. *)
Inductive jsval :=
  | JUndefined
  | JNull
  | JBool (b : bool)
  | JNum (z : Z)
  | JStr (s : string)
  | JArr (items : list jsval)
  | JObj (fields : list (string * jsval)).

(** A thrown value, by its [message] if it has one. *)
Inductive Thrown := Throw (message : option string).

Definition Error_ (msg : string) : Thrown := Throw (Some msg).

(** The text of a [TypeError] is the engine's; its place is held by this
    one. *)
Definition TypeError : Thrown := Throw (Some "TypeError").

Inductive Completion (A : Type) :=
  | Returned (a : A)
  | Threw (e : Thrown).

Arguments Returned {A} a.

Arguments Threw {A} e.

(** Calls of the WebCrypto primitives, as they are made. *)
Inductive Op :=
  | OpImportKey
  | OpExportKey
  | OpRsaEncrypt
  | OpRsaDecrypt (data : bytes)
  | OpAesEncrypt
  | OpAesDecrypt (ciphertext iv : bytes)
  | OpDigest (data : bytes).

Record World := mkWorld {
  localStorage : gmap string string;
  chain : State;
  ops : list Op
}.

Definition JS (A : Type) : Type := World → World * Completion A.

Definition js_ret {A} (a : A) : JS A := fun w => (w, Returned a).

Definition js_bind {A B} (c : JS A) (k : A → JS B) : JS B :=
  fun w => match c w with
           | (w', Returned a) => k a w'
           | (w', Threw e) => (w', Threw e)
           end.

Definition throw {A} (e : Thrown) : JS A := fun w => (w, Threw e).

(** [try { body } catch (e) { handler }]: what the body did to the world
    before it threw stays done. *)
Definition try_catch {A} (body : JS A) (handler : Thrown → JS A) : JS A :=
  fun w => match body w with
           | (w', Returned a) => (w', Returned a)
           | (w', Threw e) => handler e w'
           end.

Definition lift {A} (r : Completion A) : JS A := fun w => (w, r).

(** A call of a primitive: logged, then its result. *)
Definition perform {A} (op : Op) (r : Completion A) : JS A :=
  fun w => (mkWorld (localStorage w) (chain w) (ops w ++ [op]), r).

Definition getItem (key : string) : JS (option string) :=
  fun w => (w, Returned (localStorage w !! key)).

Definition setItem (key value : string) : JS unit :=
  fun w => (mkWorld (<[key := value]> (localStorage w)) (chain w) (ops w), Returned tt).

Declare Scope js_scope.

Delimit Scope js_scope with js.

Notation "x <- c ;; k" := (js_bind c (fun x => k))
  (at level 100, c at next level, right associativity) : js_scope.

Notation "c ;; k" := (js_bind c (fun _ => k))
  (at level 100, right associativity) : js_scope.

(** [!v] *)
Definition falsy (v : jsval) : bool :=
  match v with
  | JUndefined | JNull | JBool false | JNum 0 | JStr "" => true
  | _ => false
  end.

(** [v === undefined] *)
Definition is_undefined (v : jsval) : bool :=
  match v with
  | JUndefined => true
  | _ => false
  end.

(** [!s] for the result of [getItem]: [null] or the empty string. *)
Definition absent (s : option string) : bool :=
  match s with
  | None | Some "" => true
  | Some _ => false
  end.

Fixpoint field (k : string) (fields : list (string * jsval)) : jsval :=
  match fields with
  | [] => JUndefined
  | (k', v) :: rest => if String.eqb k k' then v else field k rest
  end.

(** [v.k] for one of the property names the client reads: a [TypeError]
    on [null] and [undefined], the field of an object, [undefined] on
    anything else. *)
Definition get_prop (v : jsval) (k : string) : Completion jsval :=
  match v with
  | JUndefined | JNull => Threw TypeError
  | JObj fields => Returned (field k fields)
  | _ => Returned JUndefined
  end.

(** [x.toString(16).padStart(2, "0")] for a byte [x]. *)
Definition hex_digit (n : N) : ascii :=
  match n with
  | 0 => "0" | 1 => "1" | 2 => "2" | 3 => "3" | 4 => "4" | 5 => "5"
  | 6 => "6" | 7 => "7" | 8 => "8" | 9 => "9" | 10 => "a" | 11 => "b"
  | 12 => "c" | 13 => "d" | 14 => "e" | _ => "f"
  end%N%char.

Definition hex_of_byte (b : byte) : string :=
  String (hex_digit (Byte.to_N b / 16)) (String (hex_digit (Byte.to_N b mod 16)) "").

Definition hex_of_bytes (b : bytes) : string :=
  foldr (λ x acc, hex_of_byte x +:+ acc) "" b.

Definition bytesToHex (b : bytes) : string := "0x" +:+ hex_of_bytes b.

(** [s.toLowerCase()], on ASCII. *)
Definition lower (c : ascii) : ascii :=
  let n := N_of_ascii c in
  if ((65 <=? n) && (n <=? 90))%N then ascii_of_N (n + 32) else c.

Fixpoint toLowerCase (s : string) : string :=
  match s with
  | EmptyString => EmptyString
  | String c rest => String (lower c) (toLowerCase rest)
  end.

(** The value of a hex digit, and the byte two of them denote. *)
Definition hex_value (c : ascii) : N :=
  let n := N_of_ascii c in
  if (n <? 58)%N then (n - 48)%N else (n - 87)%N.
Definition byte_of_hex (c1 c2 : ascii) : byte :=
  default x00 (Byte.of_N (16 * hex_value c1 + hex_value c2)).

(** The unsigned integer a byte string denotes, big-endian: how a hex
    text is decoded into a [bytesN] argument of a contract call. *)
Definition be_Z (b : bytes) : Z :=
  fold_left (λ acc x, acc * 256 + Z.of_N (Byte.to_N x)) b 0.

(** The primitives of the platform: [JSON], the wrappers of WebCrypto
    and of [atob]/[btoa] in [lib/crypto.ts], and the wallet's address
    resolution.  [hexToBytes] is among them because its result only
    feeds [aesDecrypt]. *)
Class Platform := {
  AesKey : Type;
  RsaPublicKey : Type;
  RsaPrivateKey : Type;
  JSON_parse : string → Completion jsval;
  JSON_stringify : jsval → string;
  SHA256 : bytes → bytes;
  aesEncrypt : string → AesKey → bytes → Completion bytes;
  aesDecrypt : bytes → AesKey → bytes → Completion string;
  aesExportRaw : AesKey → Completion bytes;
  aesImportRaw : bytes → Completion AesKey;
  importRsaPublicKeyJwk : jsval → Completion RsaPublicKey;
  importRsaPrivateKeyJwk : jsval → Completion RsaPrivateKey;
  rsaOaepEncrypt : RsaPublicKey → bytes → Completion bytes;
  rsaOaepDecrypt : RsaPrivateKey → bytes → Completion bytes;
  base64ToBytes : jsval → Completion bytes;
  bytesToBase64 : bytes → string;
  hexToBytes : jsval → Completion bytes;
  getAddress : string → Completion address
}.

Record Item := mkItem {
  it_id : Z;
  it_sender : address;
  it_recipient : address;
  it_timestamp : Z;
  it_sha256Hash : string;
  it_iv : string;
  it_contentCID : jsval;
  it_keyCID : jsval;
  it_plaintext : option string;
  it_note : option string
}.

(** [{ ...it, contentCID, keyCID, note }] *)
Definition with_note (it : Item) (contentCID keyCID : jsval) (note : string) : Item :=
  mkItem (it_id it) (it_sender it) (it_recipient it) (it_timestamp it)
    (it_sha256Hash it) (it_iv it) contentCID keyCID (it_plaintext it) (Some note).

(** [{ ...it, contentCID, keyCID, plaintext }] *)
Definition with_plaintext (it : Item) (contentCID keyCID : jsval) (plaintext : string) : Item :=
  mkItem (it_id it) (it_sender it) (it_recipient it) (it_timestamp it)
    (it_sha256Hash it) (it_iv it) contentCID keyCID (Some plaintext) (it_note it).

Definition note_unknown_cids : string :=
  "Off-chain CIDs unknown on this device (ask sender or use shared backend/IPFS).".

Definition note_no_private_key : string :=
  "Private JWK not imported for this address.".

Definition note_no_data_key : string :=
  "No encrypted data key (message sent when you had no public key).".

Definition note_integrity : string :=
  "Integrity mismatch (on-chain hash != ciphertext hash).".

(** The arguments of a [MessageSent] log. *)
Record LogArgs := mkLogArgs {
  a_id : uint256;
  a_sender : address;
  a_recipient : address;
  a_timestamp : uint64;
  a_sha256Hash : string;
  a_iv : string
}.

Definition log_item (a : LogArgs) : Item :=
  mkItem (a_id a) (a_sender a) (a_recipient a) (a_timestamp a)
    (a_sha256Hash a) (a_iv a) (JStr "(off-chain)") (JStr "(off-chain)") None None.

Definition newer (x y : Item) : Prop := it_id y ≤ it_id x.

#[local] Instance newer_dec x y : Decision (newer x y) := Z_le_dec _ _.


(** The text of a revert, as the wallet throws it. *)
Definition revert_message (r : Revert) : string :=
  match r with
  | Error msg => msg
  | Panic _ => "panic"
  end.

(** What the client draws at random during one send: the AES key
    ([aesGenKey]), the 12-byte IV ([aesEncrypt]) and the 20 bytes of each
    locator ([randHex(40)]). *)
Record Draws `{Platform} := mkDraws {
  d_aesKey : AesKey;
  d_iv : bytes;
  d_keyLocator : bytes;
  d_contentLocator : bytes
}.

Inductive SendStatus :=
  | Required
  | SendFailed (e : Thrown)
  | Sent (contentCID keyCID : string).

Section Client.
Context `{EVM} `{Platform}.

Local Open Scope js_scope.

(** *** [lib/ipfs.ts] *)
Definition ipfsPutJson (rand : bytes) (obj : jsval) : JS string :=
  let key := "local://" +:+ hex_of_bytes rand in
  setItem key (JSON_stringify obj) ;;
  js_ret key.

Definition ipfsGetJson (uri : jsval) : JS jsval :=
  if falsy uri then throw (Error_ "empty URI") else
  match uri with
  | JStr u =>
      if String.prefix "local://" u then
        raw <- getItem u ;;
        match raw with
        | Some r =>
            if absent raw
            then throw (Error_ ("local URI not found in this browser: " +:+ u))
            else lift (JSON_parse r)
        | None => throw (Error_ ("local URI not found in this browser: " +:+ u))
        end
      else throw (Error_ "Only local:// is implemented for this project demo")
  | _ => throw TypeError
  end.

(** *** [lib/crypto.ts] *)
Definition sha256Bytes (data : bytes) : JS string :=
  d <- perform (OpDigest data) (Returned (SHA256 data)) ;;
  js_ret (bytesToHex d).

(** *** [Inbox.tsx] *)
Definition tryDecrypt (me : string) (it : Item) : JS Item :=
  mapRaw <- getItem ("msgmap:" +:+ pretty (it_id it)) ;;
  match mapRaw with
  | Some raw =>
    if absent mapRaw
    then js_ret (with_note it (it_contentCID it) (it_keyCID it) note_unknown_cids)
    else
      parsed <- lift (JSON_parse raw) ;;
      contentCID <- lift (get_prop parsed "contentCID") ;;
      keyCID <- lift (get_prop parsed "keyCID") ;;
      privRaw <- getItem ("rsa:priv:" +:+ me) ;;
      match privRaw with
      | Some praw =>
        if absent privRaw
        then js_ret (with_note it contentCID keyCID note_no_private_key)
        else
          try_catch
            (jwk <- lift (JSON_parse praw) ;;
             priv <- perform OpImportKey (importRsaPrivateKeyJwk jwk) ;;
             keyJson <- ipfsGetJson keyCID ;;
             encrypted_key_b64 <- lift (get_prop keyJson "encrypted_key_b64") ;;
             if is_undefined encrypted_key_b64
             then js_ret (with_note it contentCID keyCID note_no_data_key)
             else
               encKey <- lift (base64ToBytes encrypted_key_b64) ;;
               rawKey <- perform (OpRsaDecrypt encKey) (rsaOaepDecrypt priv encKey) ;;
               aesKey <- perform OpImportKey (aesImportRaw rawKey) ;;
               contentJson <- ipfsGetJson contentCID ;;
               iv_hex <- lift (get_prop contentJson "iv") ;;
               iv <- lift (hexToBytes iv_hex) ;;
               ciphertext_b64 <- lift (get_prop contentJson "ciphertext_b64") ;;
               ct <- lift (base64ToBytes ciphertext_b64) ;;
               sha <- sha256Bytes ct ;;
               if negb (String.eqb (toLowerCase sha) (toLowerCase (it_sha256Hash it)))
               then js_ret (with_note it contentCID keyCID note_integrity)
               else
                 plaintext <- perform (OpAesDecrypt ct iv) (aesDecrypt ct aesKey iv) ;;
                 js_ret (with_plaintext it contentCID keyCID plaintext))
            (fun e =>
               let 'Throw message := e in
               js_ret (with_note it contentCID keyCID
                         (default "Decrypt failed" message)))
      | None => js_ret (with_note it contentCID keyCID note_no_private_key)
      end
  | None => js_ret (with_note it (it_contentCID it) (it_keyCID it) note_unknown_cids)
  end.



(** *** Calls of the contract through the wallet *)
Definition contract_keyRegistry (owner : string) : JS KeyRecord :=
  a <- lift (getAddress owner) ;;
  fun w => (w, Returned (rd zeroKeyRecord (keyRegistry (chain w)) a)).

Definition contract_lastNonce (a : address) : JS Z :=
  fun w => (w, Returned (rd 0 (lastNonce (chain w)) a)).

(** [contract.sendMessage(...)] followed by [tx.wait()]: the logs of
    the transaction, or the revert thrown. *)
Definition contract_sendMessage (env : Env) (recipient : string)
    (contentCID keyCID : string) (sha256Hash : bytes32) (iv : bytes12)
    (nonce : uint128) (sigV : uint8) (sigR sigS : bytes32) : JS (list Event) :=
  to <- lift (getAddress recipient) ;;
  fun w =>
    match call (sendMessage env to contentCID keyCID sha256Hash iv nonce
                  sigV sigR sigS) (chain w) with
    | (Ok _, s') =>
        (mkWorld (localStorage w) s' (ops w),
         Returned (drop (length (events (chain w))) (events s')))
    | (Err r, _) => (w, Threw (Error_ (revert_message r)))
    end.

(** The id of the first [MessageSent] among the logs. *)
Fixpoint sent_id (logs : list Event) : option Z :=
  match logs with
  | [] => None
  | MessageSent id _ _ _ _ _ _ _ _ :: _ => Some id
  | _ :: rest => sent_id rest
  end.

(** *** [Send.tsx] *)
(** The part of [onSend] under "Fetching recipient key (if any)...":
    the locator of the key envelope it stores for the recipient, or
    the sentinel if the recipient has no usable key. *)
Definition fetchRecipientKey (draws : Draws) (recipient : string) : JS string :=
  try_catch
    (rec <- contract_keyRegistry recipient ;;
     let uri := rsaPubKeyURI rec in
     if negb (String.eqb uri "") && negb (String.eqb uri "local://no-key")
     then
       try_catch
         (jwk <- ipfsGetJson (JStr uri) ;;
          pub <- perform OpImportKey (importRsaPublicKeyJwk jwk) ;;
          raw <- perform OpExportKey (aesExportRaw (d_aesKey draws)) ;;
          encKey <- perform OpRsaEncrypt (rsaOaepEncrypt pub raw) ;;
          ipfsPutJson (d_keyLocator draws)
            (JObj [("scheme", JStr "RSA-OAEP-256"); ("v", JNum 1);
                   ("encrypted_key_b64", JStr (bytesToBase64 encKey))]))
         (fun _ => js_ret "local://no-key")
     else js_ret "local://no-key")
    (fun _ => js_ret "local://no-key").

(** [onSend], from the point where the wallet is connected (as [me],
    mining at block time [now]) and the contract has been found
    deployed; the texts set with [setStatus] on the way are left out,
    the final one is the result. *)
Definition onSend (me : address) (now : Z) (draws : Draws)
    (recipient message : string) : JS SendStatus :=
  try_catch
    (if String.eqb recipient "" || String.eqb message "" then js_ret Required
     else
       let iv := d_iv draws in
       ciphertext <- perform OpAesEncrypt (aesEncrypt message (d_aesKey draws) iv) ;;
       sha <- perform (OpDigest ciphertext) (Returned (SHA256 ciphertext)) ;;
       keyCID <- fetchRecipientKey draws recipient ;;
       contentCID <-
         ipfsPutJson (d_contentLocator draws)
           (JObj [("algo", JStr "AES-256-GCM"); ("v", JNum 1);
                  ("iv", JStr (bytesToHex iv));
                  ("ciphertext_b64", JStr (bytesToBase64 ciphertext))]) ;;
       last <- contract_lastNonce me ;;
       let nonce := last + 1 in
       logs <- contract_sendMessage (mkEnv me now) recipient contentCID keyCID
                 (be_Z sha) (be_Z iv) nonce 0 0 0 ;;
       match sent_id logs with
       | Some id =>
           setItem ("msgmap:" +:+ pretty id)
             (JSON_stringify (JObj [("contentCID", JStr contentCID);
                                    ("keyCID", JStr keyCID)])) ;;
           js_ret (Sent contentCID keyCID)
       | None => js_ret (Sent contentCID keyCID)
       end)
    (fun e => js_ret (SendFailed e)).

End Client.

(** ** The decrypt path, stage by stage *)

Section Decrypt.
Context `{EVM} `{Platform}.

(** What [ipfsGetJson] answers over a given [localStorage]. *)
Definition fetch (ls : gmap string string) (uri : jsval) : Completion jsval :=
  (ipfsGetJson uri (mkWorld ls genesis [])).2.

(** The stages of [tryDecrypt], each by what it has to find. *)
(** The correlation record of the message is in [localStorage] and
    gives the locators. *)
Definition located (ls : gmap string string) (it : Item)
    (contentCID keyCID : jsval) : Prop :=
  ∃ raw parsed,
    ls !! ("msgmap:" +:+ pretty (it_id it)) = Some raw ∧ absent (Some raw) = false ∧
    JSON_parse raw = Returned parsed ∧
    get_prop parsed "contentCID" = Returned contentCID ∧
    get_prop parsed "keyCID" = Returned keyCID.

(** The reader's private key is in [localStorage] and imports. *)
Definition keyed (ls : gmap string string) (me : string) (priv : RsaPrivateKey) : Prop :=
  ∃ praw jwk,
    ls !! ("rsa:priv:" +:+ me) = Some praw ∧ absent (Some praw) = false ∧
    JSON_parse praw = Returned jwk ∧
    importRsaPrivateKeyJwk jwk = Returned priv.

(** The key envelope is in the content store and holds a wrapped key. *)
Definition wrapped (ls : gmap string string) (keyCID : jsval) (encKey : bytes) : Prop :=
  ∃ keyJson ek,
    fetch ls keyCID = Returned keyJson ∧
    get_prop keyJson "encrypted_key_b64" = Returned ek ∧ is_undefined ek = false ∧
    base64ToBytes ek = Returned encKey.

(** The wrapped key unwraps to an AES key. *)
Definition unwrapped (priv : RsaPrivateKey) (encKey : bytes) (aesKey : AesKey) : Prop :=
  ∃ rawKey,
    rsaOaepDecrypt priv encKey = Returned rawKey ∧
    aesImportRaw rawKey = Returned aesKey.

(** The content envelope is in the content store and decodes. *)
Definition enveloped (ls : gmap string string) (contentCID : jsval) (ct iv : bytes) : Prop :=
  ∃ contentJson iv_hex c64,
    fetch ls contentCID = Returned contentJson ∧
    get_prop contentJson "iv" = Returned iv_hex ∧
    hexToBytes iv_hex = Returned iv ∧
    get_prop contentJson "ciphertext_b64" = Returned c64 ∧
    base64ToBytes c64 = Returned ct.

(** All of them: [tryDecrypt] has the ciphertext [ct] of the fetched
    content envelope in hand, and the data key [aesKey]. *)
Definition reaches (ls : gmap string string) (me : string) (it : Item)
    (contentCID keyCID : jsval) (encKey : bytes) (aesKey : AesKey)
    (ct iv : bytes) : Prop :=
  ∃ priv,
    located ls it contentCID keyCID ∧ keyed ls me priv ∧
    wrapped ls keyCID encKey ∧ unwrapped priv encKey aesKey ∧
    enveloped ls contentCID ct iv.

(** The recomputed digest agrees with the one of the ledger record. *)
Definition digest_agrees (it : Item) (ct : bytes) : Prop :=
  toLowerCase (bytesToHex (SHA256 ct)) = toLowerCase (it_sha256Hash it).

(** The calls of primitives [tryDecrypt] has made when it has the
    ciphertext in hand. *)
Definition ops_before_digest (encKey : bytes) : list Op :=
  [OpImportKey; OpRsaDecrypt encKey; OpImportKey].



(** What a run of [tryDecrypt] can come to: the calls of primitives it
    has made, and its completion. *)
Inductive attempt (ls : gmap string string) (me : string) (it : Item) :
    list Op → Completion Item → Prop :=
  | attempt_thrown raw e :
      ls !! ("msgmap:" +:+ pretty (it_id it)) = Some raw →
      absent (Some raw) = false →
      JSON_parse raw = Threw e ∨
      (∃ parsed, JSON_parse raw = Returned parsed ∧
                 get_prop parsed "contentCID" = Threw e) →
      attempt ls me it [] (Threw e)
  | attempt_note new contentCID keyCID note :
      Forall (λ op, op = OpImportKey ∨ ∃ d, op = OpRsaDecrypt d) new →
      attempt ls me it new (Returned (with_note it contentCID keyCID note))
  | attempt_mismatch contentCID keyCID encKey aesKey ct iv :
      reaches ls me it contentCID keyCID encKey aesKey ct iv →
      ¬ digest_agrees it ct →
      attempt ls me it (ops_before_digest encKey ++ [OpDigest ct])
        (Returned (with_note it contentCID keyCID note_integrity))
  | attempt_unauthentic contentCID keyCID encKey aesKey ct iv message :
      reaches ls me it contentCID keyCID encKey aesKey ct iv →
      digest_agrees it ct →
      aesDecrypt ct aesKey iv = Threw (Throw message) →
      attempt ls me it
        (ops_before_digest encKey ++ [OpDigest ct; OpAesDecrypt ct iv])
        (Returned (with_note it contentCID keyCID (default "Decrypt failed" message)))
  | attempt_opened contentCID keyCID encKey aesKey ct iv plaintext :
      reaches ls me it contentCID keyCID encKey aesKey ct iv →
      digest_agrees it ct →
      aesDecrypt ct aesKey iv = Returned plaintext →
      attempt ls me it
        (ops_before_digest encKey ++ [OpDigest ct; OpAesDecrypt ct iv])
        (Returned (with_plaintext it contentCID keyCID plaintext)).

End Decrypt.




(** ** A concrete platform for the examples

    As with [exampleEVM]: something to run the client on.  A JSON text is
    a rendering of the value, and parsing finds the value back among the
    documents the examples store; the ciphers are reversible toys. *)
Definition quote : string := String (ascii_of_nat 34) "".

Fixpoint render (v : jsval) : string :=
  match v with
  | JUndefined => "undefined"
  | JNull => "null"
  | JBool true => "true"
  | JBool false => "false"
  | JNum z => pretty z
  | JStr s => quote +:+ s +:+ quote
  | JArr items =>
      "[" +:+ (fix go (l : list jsval) : string :=
                 match l with
                 | [] => ""
                 | x :: rest => render x +:+ "," +:+ go rest
                 end) items +:+ "]"
  | JObj fields =>
      "{" +:+ (fix go (l : list (string * jsval)) : string :=
                 match l with
                 | [] => ""
                 | (k, x) :: rest =>
                     quote +:+ k +:+ quote +:+ ":" +:+ render x +:+ "," +:+ go rest
                 end) fields +:+ "}"
  end.

Definition parse_among (documents : list jsval) (text : string) : Completion jsval :=
  match List.find (λ d, String.eqb (render d) text) documents with
  | Some d => Returned d
  | None => Threw (Error_ "SyntaxError")
  end.

Definition string_of_bytes (b : bytes) : string := String.string_of_list_byte b.

Definition example_import (jwk : jsval) : Completion Z :=
  match jwk with
  | JObj fields =>
      match field "n" fields with
      | JNum n => Returned n
      | _ => Threw (Error_ "DataError")
      end
  | _ => Threw (Error_ "DataError")
  end.

Definition example_unwrap (priv : Z) (data : bytes) : Completion bytes :=
  match data with
  | b :: rest =>
      if Z.of_N (Byte.to_N b) =? priv then Returned rest else Threw (Throw None)
  | [] => Threw (Throw None)
  end.

(** [ct] without its prefix [key], if it has that prefix. *)
Fixpoint strip (key ct : bytes) : option bytes :=
  match key, ct with
  | [], _ => Some ct
  | k :: key', c :: ct' => if Byte.eqb k c then strip key' ct' else None
  | _ :: _, [] => None
  end.

Definition example_bytes_of (v : jsval) : Completion bytes :=
  match v with
  | JStr s => Returned (bytes_of s)
  | _ => Threw (Error_ "InvalidCharacterError")
  end.

Definition example_address (name : string) : Completion address :=
  if String.eqb name "alice" then Returned alice
  else if String.eqb name "bob" then Returned bob
  else if String.eqb name "charlie" then Returned charlie
  else Threw (Error_ "invalid address").

Definition examplePlatform (documents : list jsval) : Platform :=
  {| AesKey := bytes;
     RsaPublicKey := Z;
     RsaPrivateKey := Z;
     JSON_parse := parse_among documents;
     JSON_stringify := render;
     SHA256 := λ data, be_bytes 32 (example_keccak256 data);
     aesEncrypt := λ plaintext key iv, Returned (key ++ rev (bytes_of plaintext));
     aesDecrypt := λ ct key iv,
       match strip key ct with
       | Some body => Returned (string_of_bytes (rev body))
       | None => Threw (Throw None)
       end;
     aesExportRaw := λ key, Returned key;
     aesImportRaw := λ raw, Returned raw;
     importRsaPublicKeyJwk := example_import;
     importRsaPrivateKeyJwk := example_import;
     rsaOaepEncrypt := λ pub raw, Returned (byte_of_Z pub :: raw);
     rsaOaepDecrypt := example_unwrap;
     base64ToBytes := example_bytes_of;
     bytesToBase64 := string_of_bytes;
     hexToBytes := example_bytes_of;
     getAddress := example_address |}.

(** Bob's key, as a JWK. *)
Definition bob_jwk : jsval := JObj [("kty", JStr "RSA"); ("n", JNum 77)].



(** The correlation record [onSend] stores. *)
Definition correlation_record (contentCID keyCID : string) : jsval :=
  JObj [("contentCID", JStr contentCID); ("keyCID", JStr keyCID)].



(** ** The examples of the client

    Bob has registered a key.  Alice sends him "hello" and, later,
    "again".  Bob reads his inbox on the same device. *)
Definition example_iv : bytes :=
  [x00; x00; x00; x00; x00; x00; x00; x00; x00; x00; x00; x01].

Definition example_iv2 : bytes :=
  [x00; x00; x00; x00; x00; x00; x00; x00; x00; x00; x00; x02].

Definition example_key : bytes := [x01; x02].

Definition key_envelope_1 : jsval :=
  JObj [("scheme", JStr "RSA-OAEP-256"); ("v", JNum 1);
        ("encrypted_key_b64", JStr (string_of_bytes (byte_of_Z 77 :: example_key)))].

Definition content_envelope_1 : jsval :=
  JObj [("algo", JStr "AES-256-GCM"); ("v", JNum 1);
        ("iv", JStr (bytesToHex example_iv));
        ("ciphertext_b64",
         JStr (string_of_bytes (example_key ++ rev (bytes_of "hello"))))].

Definition content_envelope_2 : jsval :=
  JObj [("algo", JStr "AES-256-GCM"); ("v", JNum 1);
        ("iv", JStr (bytesToHex example_iv2));
        ("ciphertext_b64",
         JStr (string_of_bytes (example_key ++ rev (bytes_of "again"))))].

(** The second content envelope with another ciphertext in it. *)
Definition content_envelope_2_forged : jsval :=
  JObj [("algo", JStr "AES-256-GCM"); ("v", JNum 1);
        ("iv", JStr (bytesToHex example_iv2));
        ("ciphertext_b64",
         JStr (string_of_bytes (example_key ++ rev (bytes_of "wrong"))))].

Definition example_documents : list jsval :=
  [bob_jwk; key_envelope_1; content_envelope_1; content_envelope_2;
   content_envelope_2_forged;
   correlation_record "local://c1" "local://a1";
   correlation_record "local://c2" "local://a2"].

Definition browser : Platform := examplePlatform example_documents.

Definition draws_1 : @Draws browser :=
  @mkDraws browser example_key example_iv [xa1] [xc1].

Definition draws_2 : @Draws browser :=
  @mkDraws browser example_key example_iv2 [xa2] [xc2].

(** Bob has registered his key, which is in the content store, and has
    his private key on the device. *)
Definition world_0 : World :=
  mkWorld
    (<["rsa:priv:bob" := render bob_jwk]> (<["local://bobkey" := render bob_jwk]> ∅))
    (call (registerRSAPublicKey (mkEnv bob 50) 9 "local://bobkey") genesis).2
    [].

Definition world_1 : World :=
  (@onSend exampleEVM browser alice 100 draws_1 "bob" "hello" world_0).1.

Definition world_2 : World :=
  (@onSend exampleEVM browser alice 200 draws_2 "bob" "again" world_1).1.

(** The second content envelope is replaced in the content store. *)
Definition world_forged : World :=
  mkWorld (<["local://c2" := render content_envelope_2_forged]> (localStorage world_2))
    (chain world_2) [].


(** The second message, whose content envelope has been replaced. *)
Definition forged_entry : Item :=
  log_item (mkLogArgs 2 alice bob 200
    (bytesToHex (@SHA256 browser (example_key ++ rev (bytes_of "again"))))
    (bytesToHex example_iv2)).

(** * Part II: lemmas and theorems *)

(** Reading a storage variable after a write. *)
Ltac storage :=
  cbn [nextMessageId messages inboxIndex outboxIndex lastNonce minIntervalSeconds
       lastSentAt usedIV keyRegistry events
       set_nextMessageId set_messages set_inboxIndex set_outboxIndex set_lastNonce
       set_minIntervalSeconds set_lastSentAt set_usedIV set_keyRegistry emit
       negb andb orb] in *.

Section AcceptanceFacts.
Context `{EVM}.

Lemma sendMessage_call s env recipient contentCID keyCID sha256Hash iv nonce
    sigV sigR sigS :
  call (sendMessage env recipient contentCID keyCID sha256Hash iv nonce
          sigV sigR sigS) s =
  match verdict s env recipient contentCID keyCID sha256Hash iv nonce
          sigV sigR sigS with
  | Some r => (Err r, s)
  | None => (Ok tt, accepted s env recipient contentCID keyCID sha256Hash iv
                      nonce sigV sigR sigS)
  end.
Proof.
  unfold verdict, recovered_signer, call, sendMessage, bind, require, gets,
    modify, checked_sub, checked_add, ret, revert.
  fold (sig_present sigV sigR sigS).
  destruct (recipient =? 0); [reflexivity |].
  destruct (sha256Hash =? 0); [reflexivity |].
  destruct (iv =? 0); [reflexivity |]. storage.
  destruct (_ <=? to_uint64 _); [| reflexivity]. storage.
  destruct (minIntervalSeconds s <=? _); [| reflexivity]. storage.
  destruct (rd false _ _); [reflexivity |]. storage.
  destruct (_ + 1 <=? max_uint 128); [| reflexivity]. storage.
  destruct (nonce =? _); [| reflexivity]. storage.
  destruct (sig_present sigV sigR sigS); storage.
  - destruct (ecrecover _ sigV sigR sigS =? msg_sender env); [| reflexivity].
    storage. destruct (_ + 1 <=? max_uint 256); reflexivity.
  - destruct (_ + 1 <=? max_uint 256); reflexivity.
Qed.

End AcceptanceFacts.

Section MachineFacts.
Context `{EVM}.

Lemma steps_trans s1 s2 s3 : steps s1 s2 → steps s2 s3 → steps s1 s3.
Proof. intros H12 H23. induction H23; [done | by constructor; auto]. Qed.

(** What the checks of an accepted submission have established. *)
Lemma verdict_None s env recipient contentCID keyCID sha256Hash iv nonce
    sigV sigR sigS :
  verdict s env recipient contentCID keyCID sha256Hash iv nonce sigV sigR sigS = None →
  recipient ≠ 0 ∧ sha256Hash ≠ 0 ∧ iv ≠ 0 ∧
  rd 0 (lastSentAt s) (msg_sender env) ≤ to_uint64 (block_timestamp env) ∧
  minIntervalSeconds s ≤
    to_uint64 (block_timestamp env) - rd 0 (lastSentAt s) (msg_sender env) ∧
  rd false (usedIV s) (msg_sender env, recipient, iv) = false ∧
  nonce = rd 0 (lastNonce s) (msg_sender env) + 1 ∧
  nonce ≤ max_uint 128 ∧
  (sig_present sigV sigR sigS = true →
   recovered_signer env recipient contentCID keyCID sha256Hash iv nonce
     sigV sigR sigS = msg_sender env) ∧
  nextMessageId s + 1 ≤ max_uint 256.
Proof.
  unfold verdict.
  repeat lazymatch goal with
  | |- context [if ?b then Some _ else _] => destruct b eqn:?; [discriminate |]
  end.
  intros _.
  repeat match goal with
  | E : negb _ = false |- _ => apply negb_false_iff in E
  | E : (_ =? _) = false |- _ => apply Z.eqb_neq in E
  | E : (_ =? _) = true |- _ => apply Z.eqb_eq in E
  | E : (_ <=? _) = true |- _ => apply Z.leb_le in E
  end.
  repeat split; try done; try lia.
  intros Hp. rewrite Hp in *. cbn [andb] in *.
  match goal with E : negb _ = false |- _ => apply negb_false_iff in E;
    by apply Z.eqb_eq in E end.
Qed.

(** A transaction either accepts a message, or leaves every variable
    the acceptance protocol reads as it was. *)
Lemma step_cases s env c :
  (∃ recipient contentCID keyCID sha256Hash iv nonce sigV sigR sigS,
     c = SendMessage recipient contentCID keyCID sha256Hash iv nonce sigV sigR sigS ∧
     verdict s env recipient contentCID keyCID sha256Hash iv nonce sigV sigR sigS = None ∧
     step s env c =
       accepted s env recipient contentCID keyCID sha256Hash iv nonce sigV sigR sigS) ∨
  (nextMessageId (step s env c) = nextMessageId s ∧
   messages (step s env c) = messages s ∧
   inboxIndex (step s env c) = inboxIndex s ∧
   outboxIndex (step s env c) = outboxIndex s ∧
   lastNonce (step s env c) = lastNonce s ∧
   lastSentAt (step s env c) = lastSentAt s ∧
   usedIV (step s env c) = usedIV s).
Proof.
  destruct c as [v | d uri | recipient contentCID keyCID sha256Hash iv nonce sigV sigR sigS].
  - right. done.
  - right. done.
  - unfold step, invoke. rewrite sendMessage_call.
    destruct (verdict _ _ _ _ _ _ _ _ _ _ _) eqn:Ev.
    + right. done.
    + left. by repeat eexists.
Qed.

End MachineFacts.

(** ** Invariants of the reachable states *)
Lemma seqZ_one m : seqZ m 1 = [m].
Proof. rewrite seqZ_cons by lia. by rewrite seqZ_nil by lia. Qed.

Lemma rd_insert `{Countable K} {V} (d : V) (m : gmap K V) (k k' : K) (v : V) :
  rd d (<[k := v]> m) k' = if decide (k = k') then v else rd d m k'.
Proof. unfold rd. rewrite lookup_insert. by case_decide. Qed.

Section InvariantsFacts.
Context `{EVM}.

Lemma one_to_succ n : 0 ≤ n → one_to (n + 1) = one_to n ++ [n + 1].
Proof.
  intros Hn. unfold one_to.
  replace (Z.to_nat (n + 1)) with (S (Z.to_nat n)) by lia.
  rewrite seq_S, fmap_app. cbn. do 2 f_equal. lia.
Qed.

(** The arena grows at its end: accepting a message appends it and
    leaves the earlier records as they were. *)
Lemma ledger_accepted s env recipient contentCID keyCID sha256Hash iv nonce
    sigV sigR sigS :
  1 ≤ nextMessageId s →
  ledger (accepted s env recipient contentCID keyCID sha256Hash iv nonce
            sigV sigR sigS) =
  ledger s ++
    [mkMessageMeta (nextMessageId s) (msg_sender env) recipient
       (to_uint64 (block_timestamp env)) sha256Hash iv
       (keccak256 (bytes_of contentCID)) (keccak256 (bytes_of keyCID))
       nonce sigR sigS sigV].
Proof.
  intros Hn. unfold ledger, accepted. storage.
  replace (nextMessageId s + 1 - 1) with ((nextMessageId s - 1) + 1) by lia.
  rewrite seqZ_app by lia. rewrite fmap_app. f_equal.
  - apply list_fmap_ext. intros i id Hid.
    apply lookup_seqZ in Hid. cbn beta. rewrite rd_insert.
    case_decide; [lia | done].
  - replace (1 + (nextMessageId s - 1)) with (nextMessageId s) by lia.
    rewrite seqZ_one. cbn [fmap list_fmap]. rewrite rd_insert. by case_decide.
Qed.

Lemma ledger_same s s' :
  nextMessageId s' = nextMessageId s → messages s' = messages s →
  ledger s' = ledger s.
Proof. unfold ledger. by intros -> ->. Qed.

Lemma Inv_genesis : Inv genesis.
Proof.
  split; try done.
  - intros m Hm. by apply elem_of_nil in Hm.
  - constructor.
Qed.

Lemma Inv_accepted s env recipient contentCID keyCID sha256Hash iv nonce
    sigV sigR sigS :
  Inv s →
  verdict s env recipient contentCID keyCID sha256Hash iv nonce sigV sigR sigS = None →
  Inv (accepted s env recipient contentCID keyCID sha256Hash iv nonce sigV sigR sigS).
Proof.
  intros HI Hv. apply verdict_None in Hv.
  destruct Hv as (_ & _ & _ & _ & _ & Hfresh & Hnonce & _ & _ & _).
  pose proof (ledger_accepted s env recipient contentCID keyCID sha256Hash iv
                nonce sigV sigR sigS (inv_next _ HI)) as HL.
  destruct HI as [Hn Hids Hout Hin Hc Hnon Hused Hnd].
  split.
  - unfold accepted. storage. lia.
  - rewrite HL, fmap_app, Hids. unfold accepted. storage.
    replace (nextMessageId s + 1 - 1) with ((nextMessageId s - 1) + 1) by lia.
    rewrite seqZ_app by lia. rewrite seqZ_one. cbn [fmap list_fmap m_id].
    do 2 f_equal. lia.
  - intros a. unfold sent_by. rewrite HL, filter_app, fmap_app.
    fold (sent_by a s). rewrite <- Hout.
    unfold getOutboxIds at 1, accepted. storage. rewrite rd_insert.
    case_decide as Ha.
    + subst a. by rewrite filter_cons_True, filter_nil.
    + rewrite filter_cons_False, filter_nil by done. by rewrite app_nil_r.
  - intros a. unfold received_by. rewrite HL, filter_app, fmap_app.
    fold (received_by a s). rewrite <- Hin.
    unfold getInboxIds at 1, accepted. storage. rewrite rd_insert.
    case_decide as Ha.
    + subst a. by rewrite filter_cons_True, filter_nil.
    + rewrite filter_cons_False, filter_nil by done. by rewrite app_nil_r.
  - intros a. unfold accepted. storage. rewrite rd_insert.
    case_decide; [specialize (Hc (msg_sender env)); lia | apply Hc].
  - intros a. unfold sent_by. rewrite HL, filter_app, fmap_app.
    fold (sent_by a s). rewrite Hnon.
    unfold accepted. storage. rewrite rd_insert.
    case_decide as Ha.
    + subst a. rewrite filter_cons_True, filter_nil by done. cbn [fmap list_fmap m_nonce].
      rewrite Hnonce. symmetry. apply one_to_succ, Hc.
    + rewrite filter_cons_False, filter_nil by done. by rewrite app_nil_r.
  - intros m. rewrite HL, elem_of_app, list_elem_of_singleton.
    unfold accepted. storage. rewrite rd_insert.
    intros [Hm | ->]; case_decide; auto.
  - rewrite HL, fmap_app. apply NoDup_app. split; [done |]. split.
    + intros t Ht. apply list_elem_of_fmap in Ht as (m & -> & Hm).
      cbn. rewrite list_elem_of_singleton. intros Heq.
      apply Hused in Hm. rewrite Heq in Hm. unfold triple in Hm. cbn in Hm.
      congruence.
    + apply NoDup_singleton.
Qed.

Lemma Inv_step s env c : Inv s → Inv (step s env c).
Proof.
  intros HI.
  destruct (step_cases s env c) as
    [(recipient & contentCID & keyCID & sha256Hash & iv & nonce & sigV & sigR & sigS
      & -> & Hv & ->) | (Hn & Hm & Hi & Ho & Hl & _ & Hu)].
  - by apply Inv_accepted.
  - pose proof (ledger_same s (step s env c) Hn Hm) as HL.
    destruct HI as [? ? ? ? ? ? ? ?].
    split; unfold sent_by, received_by, getOutboxIds, getInboxIds in *;
      rewrite ?HL, ?Hn, ?Hi, ?Ho, ?Hl, ?Hu; done.
Qed.

Lemma Inv_steps s s' : steps s s' → Inv s → Inv s'.
Proof. induction 1; [done | intros; by apply Inv_step; auto]. Qed.

Lemma Inv_reachable s : reachable s → Inv s.
Proof. intros Hr. apply (Inv_steps _ _ Hr), Inv_genesis. Qed.

End InvariantsFacts.

Section ProtocolFacts.
Context `{EVM}.

(** Once the rate-limit check has passed, the body has written the
    sender's [lastSentAt], whatever happens at the later checks. *)
Lemma written_lastSentAt s env recipient contentCID keyCID sha256Hash iv nonce
    sigV sigR sigS :
  recipient ≠ 0 → sha256Hash ≠ 0 → iv ≠ 0 →
  rd 0 (lastSentAt s) (msg_sender env) ≤ to_uint64 (block_timestamp env) →
  minIntervalSeconds s ≤
    to_uint64 (block_timestamp env) - rd 0 (lastSentAt s) (msg_sender env) →
  rd 0 (lastSentAt (written (sendMessage env recipient contentCID keyCID
                               sha256Hash iv nonce sigV sigR sigS) s))
    (msg_sender env) = to_uint64 (block_timestamp env).
Proof.
  intros H1 H2 H3 H4 H5.
  apply Z.eqb_neq in H1, H2, H3. apply Z.leb_le in H4, H5.
  unfold written, sendMessage, bind, require, gets, modify, checked_sub,
    checked_add, ret, revert.
  rewrite H1, H2, H3. storage. rewrite H4, H5. storage.
  repeat lazymatch goal with
  | |- context [if ?b then _ else _] => destruct b; storage
  end;
  rewrite rd_insert; by case_decide.
Qed.

Lemma verdict_rate_limited s env recipient contentCID keyCID sha256Hash iv nonce
    sigV sigR sigS :
  recipient ≠ 0 → sha256Hash ≠ 0 → iv ≠ 0 →
  rd 0 (lastSentAt s) (msg_sender env) ≤ to_uint64 (block_timestamp env) →
  to_uint64 (block_timestamp env) - rd 0 (lastSentAt s) (msg_sender env)
    < minIntervalSeconds s →
  verdict s env recipient contentCID keyCID sha256Hash iv nonce sigV sigR sigS
    = Some RateLimited.
Proof.
  intros H1 H2 H3 H4 H5.
  apply Z.eqb_neq in H1, H2, H3. apply Z.leb_le in H4. apply Z.leb_gt in H5.
  unfold verdict. by rewrite H1, H2, H3, H4, H5.
Qed.

(** The verdict of a submission that has passed the first two checks
    is decided by the remaining ones. *)
Lemma verdict_past_rate_limit s env recipient contentCID keyCID sha256Hash iv nonce
    sigV sigR sigS :
  recipient ≠ 0 → sha256Hash ≠ 0 → iv ≠ 0 →
  rd 0 (lastSentAt s) (msg_sender env) ≤ to_uint64 (block_timestamp env) →
  minIntervalSeconds s ≤
    to_uint64 (block_timestamp env) - rd 0 (lastSentAt s) (msg_sender env) →
  verdict s env recipient contentCID keyCID sha256Hash iv nonce sigV sigR sigS =
  if rd false (usedIV s) (msg_sender env, recipient, iv) then Some DuplicateIV
  else if negb (rd 0 (lastNonce s) (msg_sender env) + 1 <=? max_uint 128)
       then Some Overflow
  else if negb (nonce =? rd 0 (lastNonce s) (msg_sender env) + 1) then Some BadNonce
  else if sig_present sigV sigR sigS &&
          negb (recovered_signer env recipient contentCID keyCID sha256Hash iv
                  nonce sigV sigR sigS =? msg_sender env)
       then Some BadSignature
  else if negb (nextMessageId s + 1 <=? max_uint 256) then Some Overflow
  else None.
Proof.
  intros H1 H2 H3 H4 H5.
  apply Z.eqb_neq in H1, H2, H3. apply Z.leb_le in H4, H5.
  unfold verdict. by rewrite H1, H2, H3, H4, H5.
Qed.

Lemma past_rate_limit_not_RateLimited s env recipient contentCID keyCID
    sha256Hash iv nonce sigV sigR sigS :
  recipient ≠ 0 → sha256Hash ≠ 0 → iv ≠ 0 →
  rd 0 (lastSentAt s) (msg_sender env) ≤ to_uint64 (block_timestamp env) →
  minIntervalSeconds s ≤
    to_uint64 (block_timestamp env) - rd 0 (lastSentAt s) (msg_sender env) →
  verdict s env recipient contentCID keyCID sha256Hash iv nonce sigV sigR sigS
    ≠ Some RateLimited.
Proof.
  intros H1 H2 H3 H4 H5. rewrite verdict_past_rate_limit by done.
  repeat lazymatch goal with
  | |- context [if ?b then Some _ else _] => destruct b
  end; discriminate.
Qed.

(** [RateLimited] is the failure of the rate-limit check and of no
    other. *)
Lemma verdict_RateLimited s env recipient contentCID keyCID sha256Hash iv nonce
    sigV sigR sigS :
  verdict s env recipient contentCID keyCID sha256Hash iv nonce sigV sigR sigS
    = Some RateLimited →
  rd 0 (lastSentAt s) (msg_sender env) ≤ to_uint64 (block_timestamp env) ∧
  to_uint64 (block_timestamp env) - rd 0 (lastSentAt s) (msg_sender env)
    < minIntervalSeconds s.
Proof.
  unfold verdict.
  destruct (recipient =? 0); [discriminate |].
  destruct (sha256Hash =? 0); [discriminate |].
  destruct (iv =? 0); [discriminate |].
  destruct (_ <=? to_uint64 _) eqn:E4; [| discriminate].
  destruct (minIntervalSeconds s <=? _) eqn:E5; cbn [negb].
  - repeat lazymatch goal with
    | |- context [if ?b then Some _ else _] => destruct b
    end; discriminate.
  - intros _. apply Z.leb_le in E4. apply Z.leb_gt in E5. done.
Qed.



Lemma minIntervalSeconds_kept s s' :
  steps_keeping_interval s s' → minIntervalSeconds s' = minIntervalSeconds s.
Proof.
  induction 1 as [| s s' env c _ IH Hc]; [done |]. rewrite <- IH.
  destruct c as [v | d uri | recipient contentCID keyCID sha256Hash iv nonce
                              sigV sigR sigS]; [done | done |].
  unfold step, invoke. rewrite sendMessage_call.
  by destruct (verdict _ _ _ _ _ _ _ _ _ _ _).
Qed.

(** An accepted message stamps the sender's [lastSentAt] with the
    acceptance time. *)
Lemma accepted_lastSentAt s env recipient contentCID keyCID sha256Hash iv nonce
    sigV sigR sigS :
  rd 0 (lastSentAt (accepted s env recipient contentCID keyCID sha256Hash iv
                      nonce sigV sigR sigS)) (msg_sender env)
  = to_uint64 (block_timestamp env).
Proof. unfold accepted. storage. rewrite rd_insert. by case_decide. Qed.

(** A used triple stays used. *)
Lemma usedIV_step s env c k :
  rd false (usedIV s) k = true → rd false (usedIV (step s env c)) k = true.
Proof.
  intros Hk.
  destruct (step_cases s env c) as
    [(recipient & contentCID & keyCID & sha256Hash & iv & nonce & sigV & sigR & sigS
      & -> & Hv & ->) | (_ & _ & _ & _ & _ & _ & ->)]; [| done].
  unfold accepted. storage. rewrite rd_insert. by case_decide.
Qed.

Lemma usedIV_steps s s' k :
  steps s s' → rd false (usedIV s) k = true → rd false (usedIV s') k = true.
Proof. induction 1; [done | intros; by apply usedIV_step; auto]. Qed.

End ProtocolFacts.

(** C4. [sendMessage] is atomic.  Whatever the reason a submission
    fails for, the ledger after the call is the ledger before it: the
    sender's [lastSentAt] and [lastNonce], the [usedIV] marking, the
    arena [messages], [nextMessageId], the inbox and outbox indices, and
    every other variable.  What the body had written before the failing
    check (see [body_writes_before_it_fails]) is not committed; and when
    the failure is a zero recipient, digest or IV, the body had not
    written anything. *)
Theorem sendMessage_atomic `{EVM} s env recipient contentCID keyCID sha256Hash iv
    nonce sigV sigR sigS r s' :
  let submit := sendMessage env recipient contentCID keyCID sha256Hash iv nonce
                  sigV sigR sigS in
  call submit s = (Err r, s') →
  s' = s ∧
  lastSentAt s' = lastSentAt s ∧ lastNonce s' = lastNonce s ∧
  usedIV s' = usedIV s ∧ messages s' = messages s ∧
  nextMessageId s' = nextMessageId s ∧
  inboxIndex s' = inboxIndex s ∧ outboxIndex s' = outboxIndex s ∧
  events s' = events s ∧
  (r = InvalidInput_recipient ∨ r = InvalidInput_digest ∨ r = InvalidInput_iv →
   written submit s = s).
Proof.
  intros submit. subst submit. rewrite sendMessage_call.
  destruct (verdict _ _ _ _ _ _ _ _ _ _ _) as [r' |] eqn:Hv; [| discriminate].
  intros [= -> <-]. repeat split.
  intros Hinput. revert Hv.
  unfold verdict, written, sendMessage, bind, require, ret, revert.
  destruct (recipient =? 0); [done |].
  destruct (sha256Hash =? 0); [done |].
  destruct (iv =? 0); [done |]. cbn [negb].
  intros Hv. exfalso.
  repeat lazymatch type of Hv with
  | (if ?b then Some _ else _) = _ => destruct b
  end;
  first [ discriminate
        | injection Hv as <-; destruct Hinput as [Hi | [Hi | Hi]]; discriminate ].
Qed.

(** A submission with a wrong nonce, at genesis: rejected with
    [BadNonce], and the ledger is still the genesis ledger. *)
Lemma sendMessage_atomic_witness :
  call (@sendMessage exampleEVM (mkEnv alice 100) bob "local://c1" "local://k1"
          5 7 2 0 0 0) genesis = (Err BadNonce, genesis) ∧
  genesis = genesis ∧
  lastSentAt genesis = lastSentAt genesis ∧ lastNonce genesis = lastNonce genesis ∧
  usedIV genesis = usedIV genesis ∧ messages genesis = messages genesis ∧
  nextMessageId genesis = nextMessageId genesis ∧
  inboxIndex genesis = inboxIndex genesis ∧ outboxIndex genesis = outboxIndex genesis ∧
  events genesis = events genesis.
Proof.
  split; [vm_compute; reflexivity |].
  destruct (@sendMessage_atomic exampleEVM genesis (mkEnv alice 100) bob
              "local://c1" "local://k1" 5 7 2 0 0 0 BadNonce genesis)
    as (? & ? & ? & ? & ? & ? & ? & ? & ? & _); [vm_compute; reflexivity |].
  repeat split; assumption.
Defined.

(** The same submission, seen from inside: when the nonce check fails
    the body has already stamped [lastSentAt] and marked the IV. *)
Example body_writes_before_it_fails :
  let body := @sendMessage exampleEVM (mkEnv alice 100) bob "local://c1"
                "local://k1" 5 7 2 0 0 0 in
  rd 0 (lastSentAt (written body genesis)) alice = 100 ∧
  rd false (usedIV (written body genesis)) (alice, bob, 7) = true ∧
  rd 0 (lastSentAt (call body genesis).2) alice = 0 ∧
  rd false (usedIV (call body genesis).2) (alice, bob, 7) = false.
Proof. vm_compute. done. Qed.

(** C3. The rate limit and its boundary.  For a structurally valid
    submission at time [now] by a sender whose last accepted submission
    was at [lastSentAt <= now]: if [now - lastSentAt < minIntervalSeconds]
    the call fails with [RateLimited]; if [now - lastSentAt >=
    minIntervalSeconds] (so also when the two are equal) the rate-limit
    check passes: the call does not fail with [RateLimited], the body
    goes on to stamp [lastSentAt], and the submission is accepted as soon
    as the IV is fresh, the nonce is the next one and the signature, if
    there is one, is the sender's.  An accepted submission leaves its own
    time in [lastSentAt], which is how that entry comes to be the time of
    the sender's last accepted submission. *)
Theorem rate_limit_boundary `{EVM} s env recipient contentCID keyCID sha256Hash iv
    nonce sigV sigR sigS :
  let sender := msg_sender env in
  let now := to_uint64 (block_timestamp env) in
  let last := rd 0 (lastSentAt s) sender in
  let submit := sendMessage env recipient contentCID keyCID sha256Hash iv nonce
                  sigV sigR sigS in
  recipient ≠ 0 → sha256Hash ≠ 0 → iv ≠ 0 →
  last ≤ now →
  (now - last < minIntervalSeconds s → call submit s = (Err RateLimited, s)) ∧
  (minIntervalSeconds s ≤ now - last →
     (call submit s).1 ≠ Err RateLimited ∧
     rd 0 (lastSentAt (written submit s)) sender = now ∧
     (isIVUsed s sender recipient iv = false →
      nonce = rd 0 (lastNonce s) sender + 1 → nonce ≤ max_uint 128 →
      (sig_present sigV sigR sigS = true →
       recovered_signer env recipient contentCID keyCID sha256Hash iv nonce
         sigV sigR sigS = sender) →
      nextMessageId s + 1 ≤ max_uint 256 →
      call submit s = (Ok tt, accepted s env recipient contentCID keyCID
                                sha256Hash iv nonce sigV sigR sigS))) ∧
  (∀ s', call submit s = (Ok tt, s') → rd 0 (lastSentAt s') sender = now).
Proof.
  intros sender now last submit H1 H2 H3 H4. subst submit. split; [| split].
  - intros Hlt. rewrite sendMessage_call.
    by rewrite verdict_rate_limited.
  - intros Hge. rewrite sendMessage_call.
    pose proof (past_rate_limit_not_RateLimited s env recipient contentCID keyCID
                  sha256Hash iv nonce sigV sigR sigS H1 H2 H3 H4 Hge) as Hnot.
    rewrite verdict_past_rate_limit in * by done.
    split; [| split].
    + destruct (if rd false _ _ then _ else _) as [r |]; cbn; congruence.
    + by apply written_lastSentAt.
    + unfold isIVUsed. fold sender. intros -> Hn Hmax Hsig Hid.
      subst nonce.
      assert ((rd 0 (lastNonce s) sender + 1 <=? max_uint 128) = true) as ->
        by (apply Z.leb_le; lia).
      rewrite Z.eqb_refl.
      assert ((nextMessageId s + 1 <=? max_uint 256) = true) as ->
        by (apply Z.leb_le; lia).
      cbn [negb].
      destruct (sig_present sigV sigR sigS); [| done].
      rewrite Hsig by done. by rewrite Z.eqb_refl.
  - intros s' Hcall. rewrite sendMessage_call in Hcall.
    destruct (verdict _ _ _ _ _ _ _ _ _ _ _); [discriminate |].
    injection Hcall as <-. apply accepted_lastSentAt.
Qed.

(** The scenario of the boundary: Alice's first message is accepted at
    time 100; her next one, ten seconds later, is accepted. *)
Lemma rate_limit_boundary_witness :
  let s := (call (first_send 100) genesis).2 in
  let env := mkEnv alice 110 in
  let submit := @sendMessage exampleEVM env bob "local://c2" "local://k2" 6 8 2 0 0 0 in
  rd 0 (lastSentAt s) alice = 100 ∧ minIntervalSeconds s = 10 ∧
  (call submit s).1 ≠ Err RateLimited ∧
  call submit s = (Ok tt, @accepted exampleEVM s env bob "local://c2" "local://k2"
                            6 8 2 0 0 0).
Proof.
  intros s env submit.
  split; [vm_compute; reflexivity |]. split; [vm_compute; reflexivity |].
  destruct (@rate_limit_boundary exampleEVM s env bob "local://c2" "local://k2"
              6 8 2 0 0 0) as (_ & Hge & _); try (vm_compute; congruence).
  destruct Hge as (Hne & _ & Hok); [vm_compute; congruence |].
  split; [exact Hne |].
  apply Hok; vm_compute; congruence.
Defined.

(** C1, as the code has it.  The nonce counter of every sender starts at
    0.  A submission is accepted only if its nonce is the sender's
    counter plus 1, and acceptance sets the counter to that nonce; so in
    every reachable ledger the nonces of the messages accepted from a
    sender are exactly 1, 2, ..., counter, in the order of acceptance
    (which is the order of the sender's outbox).  A submission with any
    other nonce (counter + 2, say) is never accepted, and the failure it
    gets is [BadNonce] when it has passed the checks that come first:
    valid fields, rate limit, fresh IV. *)
Theorem nonce_sequence `{EVM} :
  (∀ a, rd 0 (lastNonce genesis) a = 0) ∧
  (∀ s a, reachable s →
     m_nonce <$> sent_by a s = one_to (rd 0 (lastNonce s) a) ∧
     getOutboxIds s a = m_id <$> sent_by a s) ∧
  (∀ s env recipient contentCID keyCID sha256Hash iv nonce sigV sigR sigS s',
     call (sendMessage env recipient contentCID keyCID sha256Hash iv nonce
             sigV sigR sigS) s = (Ok tt, s') →
     nonce = rd 0 (lastNonce s) (msg_sender env) + 1 ∧
     rd 0 (lastNonce s') (msg_sender env) = nonce) ∧
  (∀ s env recipient contentCID keyCID sha256Hash iv nonce sigV sigR sigS,
     nonce ≠ rd 0 (lastNonce s) (msg_sender env) + 1 →
     (call (sendMessage env recipient contentCID keyCID sha256Hash iv nonce
              sigV sigR sigS) s).1 ≠ Ok tt ∧
     (recipient ≠ 0 → sha256Hash ≠ 0 → iv ≠ 0 →
      rd 0 (lastSentAt s) (msg_sender env) ≤ to_uint64 (block_timestamp env) →
      minIntervalSeconds s ≤
        to_uint64 (block_timestamp env) - rd 0 (lastSentAt s) (msg_sender env) →
      isIVUsed s (msg_sender env) recipient iv = false →
      rd 0 (lastNonce s) (msg_sender env) + 1 ≤ max_uint 128 →
      call (sendMessage env recipient contentCID keyCID sha256Hash iv nonce
              sigV sigR sigS) s = (Err BadNonce, s))).
Proof.
  split; [done |]. split; [| split].
  - intros s a Hr. apply Inv_reachable in Hr.
    split; [apply (inv_nonces _ Hr) | apply (inv_outbox _ Hr)].
  - intros s env recipient contentCID keyCID sha256Hash iv nonce sigV sigR sigS s'.
    rewrite sendMessage_call.
    destruct (verdict _ _ _ _ _ _ _ _ _ _ _) eqn:Hv; [discriminate |].
    intros [= <-]. apply verdict_None in Hv.
    destruct Hv as (_ & _ & _ & _ & _ & _ & Hn & _).
    split; [done |]. unfold accepted. storage. rewrite rd_insert. by case_decide.
  - intros s env recipient contentCID keyCID sha256Hash iv nonce sigV sigR sigS Hne.
    rewrite sendMessage_call. split.
    + destruct (verdict _ _ _ _ _ _ _ _ _ _ _) eqn:Hv; [discriminate |].
      apply verdict_None in Hv. tauto.
    + intros H1 H2 H3 H4 H5 H6 H7. unfold isIVUsed in H6.
      rewrite verdict_past_rate_limit, H6 by done.
      apply Z.leb_le in H7. apply Z.eqb_neq in Hne. by rewrite H7, Hne.
Qed.

(** After Alice's first message, a submission with nonce 3 = counter + 2
    that is otherwise in order fails with [BadNonce]. *)
Lemma nonce_sequence_witness :
  let s := (call (first_send 100) genesis).2 in
  let submit := @sendMessage exampleEVM (mkEnv alice 200) bob "local://c2"
                  "local://k2" 6 8 3 0 0 0 in
  rd 0 (lastNonce s) alice = 1 ∧
  (call submit s).1 ≠ Ok tt ∧ call submit s = (Err BadNonce, s).
Proof.
  intros s submit. split; [vm_compute; reflexivity |].
  destruct (@nonce_sequence exampleEVM) as (_ & _ & _ & Hbad).
  destruct (Hbad s (mkEnv alice 200) bob "local://c2" "local://k2" 6 8 3 0 0 0)
    as [Hno Herr]; [vm_compute; congruence |].
  split; [exact Hno |].
  apply Herr; vm_compute; congruence.
Defined.

(** C1 as stated fails: a submission whose nonce is counter + 2 does not
    fail with [BadNonce] when an earlier check rejects it.  Here the
    recipient is the zero address, and the failure is [recipient=0]. *)
Lemma nonce_skip_not_always_BadNonce :
  let submit := @sendMessage exampleEVM (mkEnv alice 100) 0 "local://c1"
                  "local://k1" 5 7 2 0 0 0 in
  2 = rd 0 (lastNonce genesis) alice + 2 ∧
  (call submit genesis).1 = Err InvalidInput_recipient ∧
  (call submit genesis).1 ≠ Err BadNonce.
Proof. vm_compute. repeat split; congruence. Qed.

(** C2, as the code has it.  In every reachable ledger no two accepted
    messages have the same (sender, recipient, iv).  Once a submission
    with a triple has been accepted, [isIVUsed] answers [true] for it
    ever after, and no later submission with that triple is accepted,
    whatever its nonce, time, content or signature; the failure it gets
    is [DuplicateIV] when it has passed the checks that come first: a
    non-zero digest and the rate limit. *)
Theorem iv_triple_unique `{EVM} :
  (∀ s, reachable s → NoDup (triple <$> ledger s)) ∧
  (∀ s env recipient contentCID keyCID sha256Hash iv nonce sigV sigR sigS s1 s2,
     call (sendMessage env recipient contentCID keyCID sha256Hash iv nonce
             sigV sigR sigS) s = (Ok tt, s1) →
     steps s1 s2 →
     isIVUsed s2 (msg_sender env) recipient iv = true ∧
     ∀ env' contentCID' keyCID' sha256Hash' nonce' sigV' sigR' sigS',
       msg_sender env' = msg_sender env →
       let again := sendMessage env' recipient contentCID' keyCID' sha256Hash' iv
                      nonce' sigV' sigR' sigS' in
       (call again s2).1 ≠ Ok tt ∧
       (sha256Hash' ≠ 0 →
        rd 0 (lastSentAt s2) (msg_sender env') ≤ to_uint64 (block_timestamp env') →
        minIntervalSeconds s2 ≤
          to_uint64 (block_timestamp env') - rd 0 (lastSentAt s2) (msg_sender env') →
        call again s2 = (Err DuplicateIV, s2)) ∧
       (sha256Hash' ≠ 0 →
        rd 0 (lastSentAt s2) (msg_sender env') ≤ to_uint64 (block_timestamp env') →
        to_uint64 (block_timestamp env') - rd 0 (lastSentAt s2) (msg_sender env')
          < minIntervalSeconds s2 →
        call again s2 = (Err RateLimited, s2))).
Proof.
  split.
  - intros s Hr. apply Inv_reachable in Hr. apply (inv_nodup _ Hr).
  - intros s env recipient contentCID keyCID sha256Hash iv nonce sigV sigR sigS s1 s2.
    rewrite sendMessage_call.
    destruct (verdict _ _ _ _ _ _ _ _ _ _ _) eqn:Hv; [discriminate |].
    intros [= <-] Hsteps. apply verdict_None in Hv.
    destruct Hv as (Hr0 & _ & Hiv0 & _).
    assert (rd false (usedIV s2) (msg_sender env, recipient, iv) = true) as Hused.
    { apply (usedIV_steps _ _ _ Hsteps).
      unfold accepted. storage. rewrite rd_insert. by case_decide. }
    split; [exact Hused |].
    intros env' contentCID' keyCID' sha256Hash' nonce' sigV' sigR' sigS' Hsender again.
    subst again. rewrite sendMessage_call. rewrite <- Hsender in Hused.
    split; [| split].
    + destruct (verdict _ _ _ _ _ _ _ _ _ _ _) eqn:Hv'; [discriminate |].
      apply verdict_None in Hv'. destruct Hv' as (_ & _ & _ & _ & _ & Hf & _).
      congruence.
    + intros H2 H4 H5. by rewrite verdict_past_rate_limit, Hused.
    + intros H2 H4 H5. by rewrite verdict_rate_limited.
Qed.

(** Alice's first message is accepted at time 100; Bob registers a key;
    at time 200 Alice submits again with the same recipient and IV and
    the right next nonce: [DuplicateIV]. *)
Lemma iv_triple_unique_witness :
  let s1 := (call (first_send 100) genesis).2 in
  let s2 := @step exampleEVM s1 (mkEnv bob 150) (RegisterRSAPublicKey 9 "local://pk") in
  let again := @sendMessage exampleEVM (mkEnv alice 200) bob "local://c2"
                 "local://k2" 6 7 2 0 0 0 in
  isIVUsed s2 alice bob 7 = true ∧
  (call again s2).1 ≠ Ok tt ∧ call again s2 = (Err DuplicateIV, s2).
Proof.
  intros s1 s2 again.
  destruct (@iv_triple_unique exampleEVM) as [_ Huniq].
  destruct (Huniq genesis (mkEnv alice 100) bob "local://c1" "local://k1"
              5 7 1 0 0 0 s1 s2) as [Hused Hagain].
  - vm_compute; reflexivity.
  - apply steps_tx, steps_refl.
  - split; [exact Hused |].
    destruct (Hagain (mkEnv alice 200) "local://c2" "local://k2" 6 2 0 0 0)
      as (Hno & Herr & _); [reflexivity |].
    split; [exact Hno |].
    apply Herr; vm_compute; congruence.
Defined.

(** C2 as stated fails on the time of the second submission: reusing the
    triple five seconds after the first message gets [RateLimited], not
    [DuplicateIV], because the rate limit is checked first. *)
Lemma reused_iv_not_always_DuplicateIV :
  let s1 := (call (first_send 100) genesis).2 in
  let again := @sendMessage exampleEVM (mkEnv alice 105) bob "local://c2"
                 "local://k2" 6 7 2 0 0 0 in
  (call (first_send 100) genesis).1 = Ok tt ∧
  isIVUsed s1 alice bob 7 = true ∧
  (call again s1).1 = Err RateLimited ∧
  (call again s1).1 ≠ Err DuplicateIV.
Proof. vm_compute. repeat split; congruence. Qed.



(** C8, as the code has it.  [registerRSAPublicKey] checks nothing, the
    digest included: every call succeeds, replaces the caller's whole
    [KeyRecord] by the new digest, the new URI and the time of the call,
    leaves every other record and every other variable as they were, and
    emits [KeyRegistered] with the caller, the digest, the URI and that
    time. *)
Theorem registerRSAPublicKey_overwrites s env digest uri :
  let now := to_uint64 (block_timestamp env) in
  let record := mkKeyRecord digest uri now in
  let s' := (call (registerRSAPublicKey env digest uri) s).2 in
  (call (registerRSAPublicKey env digest uri) s).1 = Ok tt ∧
  keyRegistry s' = <[msg_sender env := record]> (keyRegistry s) ∧
  rd zeroKeyRecord (keyRegistry s') (msg_sender env) = record ∧
  events s' = events s ++ [KeyRegistered (msg_sender env) digest uri now] ∧
  nextMessageId s' = nextMessageId s ∧ messages s' = messages s ∧
  inboxIndex s' = inboxIndex s ∧ outboxIndex s' = outboxIndex s ∧
  lastNonce s' = lastNonce s ∧ minIntervalSeconds s' = minIntervalSeconds s ∧
  lastSentAt s' = lastSentAt s ∧ usedIV s' = usedIV s.
Proof.
  cbn. repeat split. rewrite rd_insert. by case_decide.
Qed.

(** C8 as stated fails: the zero digest is not rejected.  Registering it
    succeeds and the stored record carries it. *)
Lemma zero_digest_is_registered :
  let register := registerRSAPublicKey (mkEnv alice 100) 0 "local://pk" in
  (call register genesis).1 = Ok tt ∧
  rd zeroKeyRecord (keyRegistry (call register genesis).2) alice
    = mkKeyRecord 0 "local://pk" 100.
Proof. vm_compute. done. Qed.

(** C10. [setMinInterval] is open to every caller and takes every
    value: the call succeeds, sets [minIntervalSeconds] to the new value,
    emits [MinIntervalUpdated] and touches nothing else.  The value
    stays until the next call of [setMinInterval], and it is the one
    every later submission, from any sender, is rate-limited against; with
    the value 0 no submission fails with [RateLimited]. *)
Theorem setMinInterval_unrestricted `{EVM} s env newValue :
  let s1 := (call (setMinInterval env newValue) s).2 in
  (call (setMinInterval env newValue) s).1 = Ok tt ∧
  s1 = emit (MinIntervalUpdated newValue) (set_minIntervalSeconds newValue s) ∧
  minIntervalSeconds s1 = newValue ∧
  (∀ s2 env' recipient contentCID keyCID sha256Hash iv nonce sigV sigR sigS,
     steps_keeping_interval s1 s2 →
     let now := to_uint64 (block_timestamp env') in
     let last := rd 0 (lastSentAt s2) (msg_sender env') in
     let submit := sendMessage env' recipient contentCID keyCID sha256Hash iv nonce
                     sigV sigR sigS in
     minIntervalSeconds s2 = newValue ∧
     (recipient ≠ 0 → sha256Hash ≠ 0 → iv ≠ 0 → last ≤ now →
      (now - last < newValue ↔ call submit s2 = (Err RateLimited, s2))) ∧
     (newValue = 0 → (call submit s2).1 ≠ Err RateLimited)).
Proof.
  cbn zeta. split; [done |]. split; [done |]. split; [done |].
  intros s2 env' recipient contentCID keyCID sha256Hash iv nonce sigV sigR sigS Hk.
  apply minIntervalSeconds_kept in Hk. cbn in Hk. split; [done |]. split.
  - intros H1 H2 H3 H4. rewrite sendMessage_call. split.
    + intros Hlt. rewrite verdict_rate_limited; [done .. |]. by rewrite Hk.
    + intros Hcall.
      destruct (Z.lt_ge_cases
                  (to_uint64 (block_timestamp env') - rd 0 (lastSentAt s2) (msg_sender env'))
                  newValue) as [Hlt | Hge]; [done |].
      rewrite <- Hk in Hge.
      pose proof (past_rate_limit_not_RateLimited s2 env' recipient contentCID keyCID
                    sha256Hash iv nonce sigV sigR sigS H1 H2 H3 H4 Hge) as Hnot.
      destruct (verdict _ _ _ _ _ _ _ _ _ _ _); congruence.
  - intros ->. rewrite sendMessage_call.
    destruct (verdict _ _ _ _ _ _ _ _ _ _ _) as [r |] eqn:Hv; [| done].
    cbn [fst]. intros [= ->]. apply verdict_RateLimited in Hv. lia.
Qed.

(** Bob, who is nobody in particular, sets the interval to 0; Alice's
    first message is accepted at time 100 and her second one in the same
    second is accepted too. *)
Lemma setMinInterval_unrestricted_witness :
  let s1 := (call (setMinInterval (mkEnv bob 50) 0) genesis).2 in
  let s2 := @step exampleEVM s1 (mkEnv alice 100)
              (SendMessage bob "local://c1" "local://k1" 5 7 1 0 0 0) in
  let submit := @sendMessage exampleEVM (mkEnv alice 100) bob "local://c2"
                  "local://k2" 6 8 2 0 0 0 in
  @steps_keeping_interval exampleEVM s1 s2 ∧
  minIntervalSeconds s2 = 0 ∧
  (call submit s2).1 ≠ Err RateLimited ∧ (call submit s2).1 = Ok tt.
Proof.
  intros s1 s2 submit.
  assert (@steps_keeping_interval exampleEVM s1 s2) as Hk
    by (apply keeping_tx; [apply keeping_refl | exact I]).
  split; [exact Hk |].
  destruct (@setMinInterval_unrestricted exampleEVM genesis (mkEnv bob 50) 0)
    as (_ & _ & _ & Hlater).
  destruct (Hlater s2 (mkEnv alice 100) bob "local://c2" "local://k2" 6 8 2 0 0 0 Hk)
    as (Hv & _ & Hzero).
  split; [exact Hv |]. split; [apply Hzero; reflexivity |].
  vm_compute; reflexivity.
Defined.

(** ** Hex texts *)

Lemma byte_of_hex_digits b :
  byte_of_hex (hex_digit (Byte.to_N b / 16)) (hex_digit (Byte.to_N b mod 16)) = b.
Proof. destruct b; reflexivity. Qed.

Lemma hex_of_bytes_inj l1 l2 : hex_of_bytes l1 = hex_of_bytes l2 → l1 = l2.
Proof.
  revert l2. induction l1 as [| b1 l1 IH]; intros [| b2 l2];
    cbn [hex_of_bytes foldr]; unfold hex_of_byte;
    try change (String ?c1 (String ?c2 "") +:+ ?t) with (String c1 (String c2 t));
    try done.
  intros [= H1 H2 Hrest]. f_equal; [| by apply IH].
  rewrite <- (byte_of_hex_digits b1), <- (byte_of_hex_digits b2). by rewrite H1, H2.
Qed.

Lemma bytesToHex_inj l1 l2 : bytesToHex l1 = bytesToHex l2 → l1 = l2.
Proof.
  unfold bytesToHex. change ("0x" +:+ ?t) with (String "0" (String "x" t)).
  intros [= Heq]. by apply hex_of_bytes_inj.
Qed.

Lemma lower_hex_digit b :
  lower (hex_digit (Byte.to_N b / 16)) = hex_digit (Byte.to_N b / 16) ∧
  lower (hex_digit (Byte.to_N b mod 16)) = hex_digit (Byte.to_N b mod 16).
Proof. destruct b; split; reflexivity. Qed.

Lemma toLowerCase_hex_of_bytes l : toLowerCase (hex_of_bytes l) = hex_of_bytes l.
Proof.
  induction l as [| b l IH]; [done |].
  change (hex_of_bytes (b :: l)) with (hex_of_byte b +:+ hex_of_bytes l).
  unfold hex_of_byte.
  change (String ?c1 (String ?c2 "") +:+ ?t) with (String c1 (String c2 t)).
  cbn [toLowerCase].
  destruct (lower_hex_digit b) as [-> ->]. by rewrite IH.
Qed.

(** [bytesToHex] writes lower case. *)
Lemma toLowerCase_bytesToHex l : toLowerCase (bytesToHex l) = bytesToHex l.
Proof.
  unfold bytesToHex.
  change ("0x" +:+ ?t) with (String "0" (String "x" t)).
  cbn [toLowerCase]. by rewrite toLowerCase_hex_of_bytes.
Qed.

(** The comparison of [tryDecrypt] is the comparison of the digests: if
    the [sha256Hash] of the item is the hex text of a digest [d], in
    either case of the letters, the recomputed digest agrees with it
    exactly when it is [d]. *)
Lemma digest_agrees_iff `{Platform} it ct d :
  toLowerCase (it_sha256Hash it) = bytesToHex d →
  digest_agrees it ct ↔ SHA256 ct = d.
Proof.
  intros Hd. unfold digest_agrees. rewrite Hd, toLowerCase_bytesToHex. split.
  - apply bytesToHex_inj.
  - by intros ->.
Qed.

Section DecryptFacts.
Context `{EVM} `{Platform}.

Lemma ipfsGetJson_fetch uri w :
  ipfsGetJson uri w = (w, fetch (localStorage w) uri).
Proof.
  unfold fetch, ipfsGetJson, throw, js_bind, getItem, lift.
  destruct (falsy uri); [done |].
  destruct uri; try done.
  destruct (String.prefix _ _); [| done]. cbn [localStorage].
  destruct (localStorage w !! s) as [r |]; [| done].
  by destruct (absent (Some r)).
Qed.

End DecryptFacts.

Lemma js_bind_inv {A B} (c : JS A) (k : A → JS B) w w' r :
  js_bind c k w = (w', r) →
  (∃ w1 a, c w = (w1, Returned a) ∧ k a w1 = (w', r)) ∨
  (∃ e, c w = (w', Threw e) ∧ r = Threw e).
Proof.
  unfold js_bind. destruct (c w) as [w1 [a | e]].
  - left. eauto.
  - intros [= <- <-]. right. eauto.
Qed.

Lemma try_catch_inv {A} (body : JS A) (handler : Thrown → JS A) w w' r :
  try_catch body handler w = (w', r) →
  (∃ a, body w = (w', Returned a) ∧ r = Returned a) ∨
  (∃ w1 e, body w = (w1, Threw e) ∧ handler e w1 = (w', r)).
Proof.
  unfold try_catch. destruct (body w) as [w1 [a | e]].
  - intros [= <- <-]. left. eauto.
  - right. eauto.
Qed.

(** What the key block of [onSend] does: never throws, gives the
    sentinel or the locator drawn for the key envelope, and touches
    nothing but [localStorage] at that locator. *)
Lemma fetchRecipientKey_inv `{Platform} draws recipient w w' r :
  fetchRecipientKey draws recipient w = (w', r) →
  chain w' = chain w ∧
  (∃ keyCID, r = Returned keyCID ∧
     (keyCID = "local://no-key" ∨
      keyCID = "local://" +:+ hex_of_bytes (d_keyLocator draws))) ∧
  (localStorage w' = localStorage w ∨
   ∃ blob, localStorage w' =
             <["local://" +:+ hex_of_bytes (d_keyLocator draws) := blob]>
               (localStorage w)).
Proof.
  unfold fetchRecipientKey, contract_keyRegistry, ipfsPutJson.
  unfold try_catch, js_bind, lift, perform, setItem, js_ret.
  destruct (getAddress recipient) as [to | e]; [| intros [= <- <-]; eauto 10].
  cbv beta iota zeta.
  destruct (negb _ && negb _); [| intros [= <- <-]; eauto 10].
  rewrite ipfsGetJson_fetch. cbn [localStorage chain ops].
  destruct (fetch _ _) as [jwk | e]; [| intros [= <- <-]; eauto 10].
  destruct (importRsaPublicKeyJwk jwk) as [pub | e]; [| intros [= <- <-]; eauto 10].
  destruct (aesExportRaw _) as [raw | e]; [| intros [= <- <-]; eauto 10].
  destruct (rsaOaepEncrypt pub raw) as [encKey | e]; intros [= <- <-];
    cbn [localStorage chain]; eauto 10.
Qed.

Ltac js_step :=
  match goal with
  | H : js_bind _ _ _ = _ |- _ =>
      apply js_bind_inv in H;
      destruct H as [(? & ? & ? & H) | (? & H & ?)]; cbv beta in *
  | H : try_catch _ _ _ = _ |- _ =>
      apply try_catch_inv in H;
      destruct H as [(? & H & ?) | (? & ? & ? & H)]; cbv beta in *
  | H : js_ret _ _ = _ |- _ => unfold js_ret in H; injection H as ? ?
  | H : throw _ _ = _ |- _ => unfold throw in H; injection H as ? ?
  | H : lift _ _ = _ |- _ => unfold lift in H; injection H as ? ?
  | H : perform _ _ _ = _ |- _ => unfold perform in H; injection H as ? ?
  | H : getItem _ _ = _ |- _ => unfold getItem in H; injection H as ? ?
  | H : sha256Bytes _ _ = _ |- _ => unfold sha256Bytes in H
  | H : ipfsGetJson _ _ = _ |- _ => rewrite ipfsGetJson_fetch in H; injection H as ? ?
  | H : contract_lastNonce _ _ = _ |- _ =>
      unfold contract_lastNonce in H; injection H as ? ?
  | H : contract_keyRegistry _ _ = _ |- _ => unfold contract_keyRegistry in H
  | H : contract_sendMessage _ _ _ _ _ _ _ _ _ _ _ = _ |- _ =>
      unfold contract_sendMessage in H
  | H : ipfsPutJson _ _ _ = _ |- _ => unfold ipfsPutJson in H
  | H : fetchRecipientKey _ _ _ = _ |- _ =>
      apply fetchRecipientKey_inv in H; destruct H as (? & (? & ? & ?) & ?)
  | H : setItem _ _ _ = _ |- _ => unfold setItem in H; injection H as ? ?
  | H : (_, _) = (_, _) |- _ => injection H as ? ?
  | H : (let 'Throw _ := ?e in _) _ = _ |- _ => destruct e
  | H : (match ?x with _ => _ end) _ = _ |- _ => destruct x eqn:?
  | H : (if ?b then _ else _) _ = _ |- _ => destruct b eqn:?
  | H : match ?x with _ => _ end = (_, _) |- _ => destruct x eqn:?
  end; subst; cbn [localStorage chain ops] in *.

(** Inversion of a run of a client function. *)
Ltac js_inv := repeat js_step.

Section AttemptsFacts.
Context `{EVM} `{Platform}.

Lemma get_prop_thrown v k e :
  get_prop v k = Threw e → ∀ k', get_prop v k' = Threw e.
Proof. by destruct v. Qed.

Lemma digest_agrees_eqb it ct :
  (toLowerCase (bytesToHex (SHA256 ct)) =? toLowerCase (it_sha256Hash it))%string
    = true ↔ digest_agrees it ct.
Proof. apply String.eqb_eq. Qed.

Ltac have_reached :=
  unfold reaches, located, keyed, wrapped, unwrapped, enveloped;
  repeat eexists; eassumption.

Lemma tryDecrypt_attempt me it w w' r :
  tryDecrypt me it w = (w', r) →
  localStorage w' = localStorage w ∧ chain w' = chain w ∧
  ∃ new, ops w' = ops w ++ new ∧ attempt (localStorage w) me it new r.
Proof.
  unfold tryDecrypt. intros Hrun.
  js_inv.
  all: try discriminate.
  all: split; [done |]; split; [done |].
  all: eexists; split;
    [first [symmetry; apply app_nil_r | rewrite <- ?app_assoc; reflexivity] |].
  all: try (eapply attempt_thrown; eauto; fail).
  all: try (apply attempt_note; cbn; repeat constructor; eauto; fail).
  - match goal with Hd : negb _ = true |- _ => apply negb_true_iff in Hd end.
    eapply attempt_mismatch; [have_reached |].
    rewrite <- digest_agrees_eqb. congruence.
  - match goal with
    | Hd : negb _ = false |- _ => apply negb_false_iff, digest_agrees_eqb in Hd
    end.
    eapply attempt_opened; [have_reached | done | done].
  - match goal with
    | Hd : negb _ = false |- _ => apply negb_false_iff, digest_agrees_eqb in Hd
    end.
    eapply attempt_unauthentic; [have_reached | done | congruence].
  - match goal with
    | Hk : get_prop _ "keyCID" = Threw _ |- _ =>
        apply get_prop_thrown with (k' := "contentCID") in Hk; congruence
    end.
Qed.

(** With the ciphertext in hand, the rest of [tryDecrypt] is the
    comparison of the digests and, if they agree, the decryption. *)
Lemma tryDecrypt_reaches me it w contentCID keyCID encKey aesKey ct iv :
  reaches (localStorage w) me it contentCID keyCID encKey aesKey ct iv →
  tryDecrypt me it w =
  if (toLowerCase (bytesToHex (SHA256 ct)) =? toLowerCase (it_sha256Hash it))%string
  then
    (mkWorld (localStorage w) (chain w)
       (ops w ++ ops_before_digest encKey ++ [OpDigest ct; OpAesDecrypt ct iv]),
     match aesDecrypt ct aesKey iv with
     | Returned p => Returned (with_plaintext it contentCID keyCID p)
     | Threw (Throw message) =>
         Returned (with_note it contentCID keyCID (default "Decrypt failed" message))
     end)
  else
    (mkWorld (localStorage w) (chain w)
       (ops w ++ ops_before_digest encKey ++ [OpDigest ct]),
     Returned (with_note it contentCID keyCID note_integrity)).
Proof.
  intros (priv & (raw & parsed & Hraw & Habs & Hparsed & Hcid & Hkid)
          & (praw & jwk & Hpraw & Hpabs & Hjwk & Hpriv)
          & (keyJson & ek & HkeyJson & Hek & Hdef & HencKey)
          & (rawKey & HrawKey & HaesKey)
          & (contentJson & iv_hex & c64 & Hcontent & Hivh & Hiv & Hc64 & Hct)).
  unfold tryDecrypt, sha256Bytes, js_bind, getItem, lift, try_catch, perform, js_ret.
  rewrite Hraw, Habs, Hparsed, Hcid, Hkid, Hpraw, Hpabs, Hjwk, Hpriv.
  rewrite !ipfsGetJson_fetch. cbn [localStorage chain ops].
  rewrite HkeyJson, Hek, Hdef, HencKey, HrawKey, HaesKey.
  rewrite !ipfsGetJson_fetch. cbn [localStorage chain ops].
  rewrite Hcontent, Hivh, Hiv, Hc64, Hct.
  unfold ops_before_digest.
  destruct (_ =? _)%string; cbn [negb localStorage chain ops].
  - destruct (aesDecrypt ct aesKey iv) as [p | [message]];
      by rewrite <- !app_assoc.
  - by rewrite <- !app_assoc.
Qed.




End AttemptsFacts.

Section ReceiveFacts.
Context `{Platform}.

Lemma not_digest_agrees it ct :
  ¬ digest_agrees it ct →
  (toLowerCase (bytesToHex (SHA256 ct)) =? toLowerCase (it_sha256Hash it))%string
    = false.
Proof.
  intros Hd. destruct (_ =? _)%string eqn:E; [| done].
  by apply digest_agrees_eqb in E.
Qed.

Lemma attempt_decrypt_last ls me it new r ct iv :
  attempt ls me it new r → OpAesDecrypt ct iv ∈ new →
  digest_agrees it ct ∧ ∃ pre, new = pre ++ [OpDigest ct; OpAesDecrypt ct iv].
Proof.
  unfold ops_before_digest.
  destruct 1 as [raw e _ _ _ | new cid kid note Hearly
                | cid kid encKey aesKey ct' iv' _ _
                | cid kid encKey aesKey ct' iv' message _ Hd _
                | cid kid encKey aesKey ct' iv' p _ Hd _]; intros Hin.
  - by apply elem_of_nil in Hin.
  - rewrite Forall_forall in Hearly. destruct (Hearly _ Hin) as [? | [? ?]]; done.
  - cbn in Hin. rewrite !elem_of_cons, elem_of_nil in Hin.
    decompose [or] Hin; done.
  - cbn in Hin. rewrite !elem_of_cons, elem_of_nil in Hin.
    decompose [or] Hin; try done.
    match goal with Heq : OpAesDecrypt _ _ = _ |- _ => injection Heq as -> -> end.
    eauto.
  - cbn in Hin. rewrite !elem_of_cons, elem_of_nil in Hin.
    decompose [or] Hin; try done.
    match goal with Heq : OpAesDecrypt _ _ = _ |- _ => injection Heq as -> -> end.
    eauto.
Qed.

Lemma attempt_plaintext ls me it new it' p :
  attempt ls me it new (Returned it') →
  it_plaintext it = None → it_plaintext it' = Some p →
  ∃ contentCID keyCID encKey aesKey ct iv,
    reaches ls me it contentCID keyCID encKey aesKey ct iv ∧
    digest_agrees it ct ∧ aesDecrypt ct aesKey iv = Returned p ∧
    it' = with_plaintext it contentCID keyCID p ∧
    new = ops_before_digest encKey ++ [OpDigest ct; OpAesDecrypt ct iv].
Proof.
  inversion 1; subst; cbn [with_note with_plaintext it_plaintext];
    intros Hnone Hsome; try congruence.
  injection Hsome as ->. do 6 eexists.
  split; [eassumption |]. split; [eassumption |]. split; [eassumption |]. done.
Qed.

End ReceiveFacts.

(** C7. [tryDecrypt] checks the digest before it decrypts.  Whenever it
    has the ciphertext of the fetched content envelope in hand, it
    computes SHA-256 of it; if that disagrees with the [sha256Hash] of
    the ledger record, the result is the item with the note "Integrity
    mismatch" and AES-GCM has not been called at all.  AES-GCM is only
    ever called right after the digest of the same ciphertext has been
    found to agree, and a plaintext in the result is what that call
    returned.  To agree is to be the same digest: the two are compared
    as hex texts, letters in lower case. *)
Theorem integrity_checked_before_decrypt `{Platform} me it w w' r :
  tryDecrypt me it w = (w', r) →
  (∀ d ct, toLowerCase (it_sha256Hash it) = bytesToHex d →
     digest_agrees it ct ↔ SHA256 ct = d) ∧
  ∃ new, ops w' = ops w ++ new ∧
    (∀ contentCID keyCID encKey aesKey ct iv,
       reaches (localStorage w) me it contentCID keyCID encKey aesKey ct iv →
       ¬ digest_agrees it ct →
       r = Returned (with_note it contentCID keyCID note_integrity) ∧
       new = ops_before_digest encKey ++ [OpDigest ct]) ∧
    (∀ ct iv, OpAesDecrypt ct iv ∈ new →
       digest_agrees it ct ∧ ∃ pre, new = pre ++ [OpDigest ct; OpAesDecrypt ct iv]) ∧
    (∀ it' p, r = Returned it' → it_plaintext it = None →
       it_plaintext it' = Some p →
       ∃ contentCID keyCID encKey aesKey ct iv,
         reaches (localStorage w) me it contentCID keyCID encKey aesKey ct iv ∧
         digest_agrees it ct ∧ aesDecrypt ct aesKey iv = Returned p ∧
         new = ops_before_digest encKey ++ [OpDigest ct; OpAesDecrypt ct iv]).
Proof.
  intros Hrun. split; [intros d ct; apply digest_agrees_iff |].
  destruct (tryDecrypt_attempt _ _ _ _ _ Hrun) as (_ & _ & new & Hops & Hatt).
  exists new. split; [exact Hops |]. split; [| split].
  - intros contentCID keyCID encKey aesKey ct iv Hreach Hd.
    rewrite (tryDecrypt_reaches _ _ _ _ _ _ _ _ _ Hreach) in Hrun.
    rewrite (not_digest_agrees _ _ Hd) in Hrun.
    injection Hrun as <- <-. split; [done |].
    cbn [ops] in Hops. by apply app_inv_head in Hops.
  - intros ct iv. apply (attempt_decrypt_last _ _ _ _ _ _ _ Hatt).
  - intros it' p -> Hnone Hsome.
    destruct (attempt_plaintext _ _ _ _ _ _ Hatt Hnone Hsome)
      as (cid & kid & encKey & aesKey & ct & iv & ? & ? & ? & ? & ?).
    by exists cid, kid, encKey, aesKey, ct, iv.
Qed.

Section ReportingFacts.
Context `{Platform}.







End ReportingFacts.


Section SendingFacts.
Context `{EVM} `{Platform}.





End SendingFacts.




(** Bob's device on the forged envelope: the digest is computed, the
    note is the mismatch, and AES-GCM is not called. *)
Lemma integrity_checked_before_decrypt_witness :
  let run := @tryDecrypt browser "bob" forged_entry world_forged in
  run.2 = Returned (with_note forged_entry (JStr "local://c2") (JStr "local://a2")
                      note_integrity) ∧
  ∃ new, ops run.1 = ops world_forged ++ new ∧
         ∀ ct iv, OpAesDecrypt ct iv ∈ new → @digest_agrees browser forged_entry ct.
Proof.
  intros run. split; [vm_compute; reflexivity |].
  destruct (@integrity_checked_before_decrypt browser "bob" forged_entry
              world_forged run.1 run.2) as (_ & new & Hops & _ & Hlast & _).
  - subst run. apply surjective_pairing.
  - exists new. split; [exact Hops |]. intros ct iv Hin. apply (Hlast ct iv Hin).
Defined.

